(** * RAG document QA portal: chunking, score fusion, confidence gate, LLM boundary

    A shallow embedding of the retrieval core of the portal
    ([rag_pipeline.py], [llm_client.py], the QA branch of [views.py]) and
    the properties its specification states about it.

    Modelling conventions.
    - A Python [str] is a list of Unicode code points ([pystr]).
    - A Python [int] is a [Z]; slices follow Python's rules for negative and
      out-of-range bounds.
    - The [while] loop of the chunker runs on fuel: one unit of fuel is one
      execution of the loop body, and [None] means that the fuel ran out
      before the loop ended.
    - A call either returns a value or raises ([result]).
    - Scores are exact rationals ([Q]); rounding of IEEE doubles is not
      modelled. *)

From Stdlib Require Import Ascii String DecimalString.
From Stdlib Require Import ZArith NArith QArith Qround List Bool Lia Lqa Sorted.
Import ListNotations.

(** ** Python values shared by all modules *)

Definition pystr := list N.

(** A Python exception: its class name, its message, and whether the class
    derives from [openai.OpenAIError]. *)
Record exn := mkExn {
  exn_name : pystr;
  exn_message : pystr;
  exn_is_openai : bool
}.

(** The outcome of a call that finishes. *)
Inductive result (A : Type) : Type :=
| Returned (a : A)
| Raised (e : exn).
Arguments Returned {A} a.
Arguments Raised {A} e.

(** [str "abc"]: the code points of an ASCII literal. *)
Fixpoint str (s : string) : pystr :=
  match s with
  | EmptyString => []
  | String c s' => N_of_ascii c :: str s'
  end.

(** The code points of a UTF-8 byte sequence (well-formed input). *)
Fixpoint utf8_decode (bytes : list N) : pystr :=
  match bytes with
  | [] => []
  | b0 :: rest =>
      if (b0 <? 128)%N then b0 :: utf8_decode rest
      else if (b0 <? 224)%N then
        match rest with
        | b1 :: rest' => ((b0 - 192) * 64 + (b1 - 128))%N :: utf8_decode rest'
        | _ => []
        end
      else if (b0 <? 240)%N then
        match rest with
        | b1 :: b2 :: rest' =>
            ((b0 - 224) * 4096 + (b1 - 128) * 64 + (b2 - 128))%N
            :: utf8_decode rest'
        | _ => []
        end
      else
        match rest with
        | b1 :: b2 :: b3 :: rest' =>
            ((b0 - 240) * 262144 + (b1 - 128) * 4096 + (b2 - 128) * 64
             + (b3 - 128))%N :: utf8_decode rest'
        | _ => []
        end
  end.

(** [u "..."]: the code points of a literal written in UTF-8. *)
Definition u (s : string) : pystr := utf8_decode (str s).

(** [sep.join(parts)]. *)
Fixpoint join (sep : pystr) (parts : list pystr) : pystr :=
  match parts with
  | [] => []
  | [p] => p
  | p :: rest => p ++ sep ++ join sep rest
  end.

(** [str(n)] for a natural number. *)
Definition decimal (n : nat) : pystr :=
  str (NilZero.string_of_uint (Nat.to_uint n)).

Definition len {A : Type} (s : list A) : Z := Z.of_nat (length s).

(** Python's rule for one slice bound on a sequence of length [n]: a negative
    bound counts from the end; the result is clipped to [0, n]. *)
Definition clamp_index (n i : Z) : Z :=
  if (i <? 0)%Z then Z.max 0 (i + n) else Z.min i n.

(** [s[i:j]]. *)
Definition slice {A : Type} (s : list A) (i j : Z) : list A :=
  let lo := clamp_index (len s) i in
  let hi := clamp_index (len s) j in
  firstn (Z.to_nat (hi - lo)) (skipn (Z.to_nat lo) s).

(** [s[:j]]. *)
Definition slice_to {A : Type} (s : list A) (j : Z) : list A :=
  firstn (Z.to_nat (clamp_index (len s) j)) s.

(** The code points [str.strip()] removes ([str.isspace]). *)
Definition isspace (c : N) : bool :=
  ((9 <=? c) && (c <=? 13) || (28 <=? c) && (c <=? 32)
   || (c =? 133) || (c =? 160) || (c =? 5760)
   || (8192 <=? c) && (c <=? 8202)
   || (c =? 8232) || (c =? 8233) || (c =? 8239) || (c =? 8287)
   || (c =? 12288))%N.

Fixpoint lstrip (s : pystr) : pystr :=
  match s with
  | [] => []
  | c :: s' => if isspace c then lstrip s' else s
  end.

Definition rstrip (s : pystr) : pystr := rev (lstrip (rev s)).

Definition strip (s : pystr) : pystr := rstrip (lstrip s).

(** Truth value of a string: non-empty. *)
Definition truthy {A : Type} (s : list A) : bool :=
  match s with [] => false | _ => true end.

(** ** The chunker ([rag_pipeline.split_into_chunks]) *)

Module Chunker.

Local Open Scope Z_scope.

(** The [while start < n] loop. [chunks] is the list built so far. *)
Fixpoint split_loop (fuel : nat) (text : pystr) (max_chars overlap : Z)
    (start : Z) (chunks : list pystr) : option (result (list pystr)) :=
  let n := len text in
  if negb (start <? n) then Some (Returned chunks)
  else
    match fuel with
    | O => None
    | S fuel' =>
        let end_ := Z.min (start + max_chars) n in
        let chunk := strip (slice text start end_) in
        let chunks := if truthy chunk then chunks ++ [chunk] else chunks in
        if end_ =? n then Some (Returned chunks)
        else split_loop fuel' text max_chars overlap
               (Z.max 0 (end_ - overlap)) chunks
    end.

Definition split_into_chunks (fuel : nat) (text : pystr)
    (max_chars overlap : Z) : option (result (list pystr)) :=
  let text := strip text in
  if negb (truthy text) then Some (Returned [])
  else split_loop fuel text max_chars overlap 0 [].

(** The windows [(start, end)] the loop visits, in order: the same control
    flow as [split_loop], recording the bounds instead of the text. *)
Fixpoint windows (fuel : nat) (n max_chars overlap start : Z)
    : option (list (Z * Z)) :=
  if negb (start <? n) then Some []
  else
    match fuel with
    | O => None
    | S fuel' =>
        let end_ := Z.min (start + max_chars) n in
        if end_ =? n then Some [(start, end_)]
        else
          match windows fuel' n max_chars overlap (Z.max 0 (end_ - overlap)) with
          | Some ws => Some ((start, end_) :: ws)
          | None => None
          end
    end.

(** The untrimmed text of a window. *)
Definition window_text (text : pystr) (w : Z * Z) : pystr :=
  slice text (fst w) (snd w).

(** What the loop appends for a list of windows: each window trimmed, the
    empty ones left out. *)
Definition emit (text : pystr) (ws : list (Z * Z)) : list pystr :=
  filter truthy (map (fun w => strip (window_text text w)) ws).

(** The call rejects its arguments: it raises. *)
Definition rejects (text : pystr) (max_chars overlap : Z) : Prop :=
  exists fuel e, split_into_chunks fuel text max_chars overlap = Some (Raised e).

(** The call never returns: the loop outlasts every amount of fuel. *)
Definition loops_forever (text : pystr) (max_chars overlap : Z) : Prop :=
  forall fuel, split_into_chunks fuel text max_chars overlap = None.

(** [ceil(a / b)] for a positive [b]. *)
Definition ceil_div (a b : Z) : Z := (a + b - 1) / b.

(** The last [k] and the first [k] elements of a sequence. *)
Definition suffix {A : Type} (k : Z) (s : list A) : list A :=
  skipn (length s - Z.to_nat k) s.
Definition prefix {A : Type} (k : Z) (s : list A) : list A :=
  firstn (Z.to_nat k) s.

(** Chunks [a], [b] overlap by [k] characters: the last [k] characters of
    [a] are the first [k] characters of [b]. *)
Definition overlap_by (k : Z) (a b : pystr) : Prop :=
  k <= len a /\ k <= len b /\ suffix k a = prefix k b.

(** Concatenation of the chunks with the overlapping prefix of every chunk
    after the first removed. *)
Definition reconstruct (overlap : Z) (chunks : list pystr) : pystr :=
  match chunks with
  | [] => []
  | c :: rest => c ++ concat (map (skipn (Z.to_nat overlap)) rest)
  end.

(** The shape of the window list of a walk that begins at [s] over a text
    of [n] characters: full windows of [max_chars] characters, each starting
    [overlap] characters before the end of the previous one, up to a last
    window that ends at [n]. *)
Inductive walk (n max_chars overlap : Z) : Z -> list (Z * Z) -> Prop :=
| walk_last s :
    0 <= s < n -> n <= s + max_chars ->
    walk n max_chars overlap s [(s, n)]
| walk_step s ws :
    0 <= s -> s + max_chars < n ->
    walk n max_chars overlap (s + max_chars - overlap) ws ->
    walk n max_chars overlap s ((s, s + max_chars) :: ws).

(** A string of white space only. *)
Definition blank (s : pystr) : Prop := Forall (fun c => isspace c = true) s.

End Chunker.

(** ** Score fusion and ranking ([rag_pipeline.hybrid_chunk_search]) *)

Module Fusion.

Local Open Scope Q_scope.

(** One entry of the result list. *)
Record hit := mkHit {
  rank : Z;
  score : Q;
  text : pystr
}.

Definition qmin (a b : Q) : Q := if Qle_bool a b then a else b.
Definition qmax (a b : Q) : Q := if Qle_bool a b then b else a.

(** [scores.min()] and [scores.max()]: numpy raises on an empty array
    ([None]). *)
Definition np_min (scores : list Q) : option Q :=
  match scores with
  | [] => None
  | s :: rest => Some (fold_left qmin rest s)
  end.

Definition np_max (scores : list Q) : option Q :=
  match scores with
  | [] => None
  | s :: rest => Some (fold_left qmax rest s)
  end.

(** A division; [None] stands for the [nan] or [inf] that numpy produces for
    a zero divisor. *)
Definition np_divide (a b : Q) : option Q :=
  if Qeq_bool b 0 then None else Some (a / b).

Fixpoint all_some {A : Type} (l : list (option A)) : option (list A) :=
  match l with
  | [] => Some []
  | None :: _ => None
  | Some a :: l' =>
      match all_some l' with
      | Some r => Some (a :: r)
      | None => None
      end
  end.

Definition eps : Q := 1 # 1000000000.

(** The min-max normalization of one score vector, with its degenerate
    branch. [None]: the vector is empty or a division by zero occurred. *)
Definition normalize (scores : list Q) : option (list Q) :=
  match np_min scores, np_max scores with
  | Some lo, Some hi =>
      if Qlt_le_dec (hi - lo) eps
      then Some (map (fun _ => 1) scores)
      else all_some (map (fun s => np_divide (s - lo) (hi - lo)) scores)
  | _, _ => None
  end.

(** [alpha * sem_norm + (1 - alpha) * bm25_norm], for one chunk and for the
    vectors. *)
Definition fuse_score (alpha sem bm25 : Q) : Q :=
  alpha * sem + (1 - alpha) * bm25.

Definition fuse (alpha : Q) (sem_norm bm25_norm : list Q) : list Q :=
  map (fun p => fuse_score alpha (fst p) (snd p)) (combine sem_norm bm25_norm).

(** [np.argsort]: the indices of [v] in ascending order of their values.
    The index array is sorted by insertion, comparing the values it points
    to, as numpy does on short arrays; equal values keep their index order.
    numpy's documentation promises the ascending order only. *)
Definition key (v : list Q) (i : nat) : Q := nth i v 0.

Fixpoint insert_index (v : list Q) (i : nat) (sorted : list nat) : list nat :=
  match sorted with
  | [] => [i]
  | j :: rest =>
      if Qle_bool (key v i) (key v j) then i :: sorted
      else j :: insert_index v i rest
  end.

Definition np_argsort (v : list Q) : list nat :=
  fold_right (insert_index v) [] (seq 0 (length v)).

(** [np.argsort(final_scores)[::-1][:top_k]]. *)
Definition top_indices (final_scores : list Q) (top_k : Z) : list nat :=
  slice_to (rev (np_argsort final_scores)) top_k.

(** The result list built from the selected indices: ranks from 1. *)
Definition results (final_scores : list Q) (chunk_texts : list pystr)
    (sorted_idx : list nat) : list hit :=
  map (fun p => mkHit (Z.of_nat (fst p)) (key final_scores (snd p))
                      (nth (snd p) chunk_texts []))
      (combine (seq 1 (length sorted_idx)) sorted_idx).

Section Search.

(** The two scorers are collaborators: BM25Okapi over the chunks split at
    white space, and the cosine similarity of the embeddings. Each returns
    one score per chunk. *)
Variable bm25_scores : list pystr -> pystr -> list Q.
Variable semantic_scores : list pystr -> pystr -> list Q.

(** Steps (A) to (C): the fused score of every chunk. *)
Definition final_scores (chunk_texts : list pystr) (query : pystr) (alpha : Q)
    : option (list Q) :=
  match normalize (bm25_scores chunk_texts query) with
  | None => None
  | Some bm25_norm =>
      match normalize (semantic_scores chunk_texts query) with
      | None => None
      | Some sem_norm => Some (fuse alpha sem_norm bm25_norm)
      end
  end.

(** [chunks] are the chunk texts of the document in [chunk_index] order. *)
Definition hybrid_chunk_search (chunks : list pystr) (query : pystr)
    (top_k : Z) (alpha : Q) : option (list hit) :=
  let query := strip query in
  if negb (truthy query) then Some []
  else if negb (truthy chunks) then Some []
  else
    match final_scores chunks query alpha with
    | None => None
    | Some final => Some (results final chunks (top_indices final top_k))
    end.

End Search.

(** Ascending order of [np_argsort]: by value, then by index. *)
Definition asc (v : list Q) (i j : nat) : Prop :=
  key v i < key v j \/ (key v i == key v j /\ (i < j)%nat).

End Fusion.

(** ** The answer-generation boundary ([llm_client.py]) *)

Module LLM.

Definition system_prompt : pystr :=
  u "당신은 한국어로 답변하는 '문서 기반 질의응답 보조 AI'입니다. 반드시 제공된 문서 내용(근거) 안에서만 답을 찾으려고 하세요. 문서에 없는 내용은 절대 추측하지 말고, '이 문서에서 알 수 없습니다.' 라고 말해야 합니다. 답변할 때는 가능한 한 [근거 N] 번호를 같이 언급해 주세요.".

Definition user_prompt_head : pystr :=
  [10%N] ++ u "아래는 한 문서의 일부 내용(여러 청크)입니다. 이 내용을 바탕으로 사용자의 질문에 답변해 주세요." ++
  [10%N] ++ [10%N] ++ u "[문서 내용]" ++ [10%N].

Definition user_prompt_middle : pystr :=
  [10%N] ++ [10%N] ++ u "[질문]" ++ [10%N].

Definition user_prompt_tail : pystr :=
  [10%N] ++ [10%N] ++ u "[요청]" ++ [10%N] ++
  u "1) 최대 5문장 이내로 간단하고 명확하게 답변해 주세요." ++ [10%N] ++
  u "2) 반드시 위의 [근거 N] 안에서만 답을 찾으세요." ++ [10%N] ++
  u "3) 만약 질문에 대한 정보가 문서에 충분히 없다면," ++ [10%N] ++ u "   무조건 " ++ [34%N] ++
  u "이 문서에서 알 수 없습니다." ++ [34%N] ++ u "라고 답하세요." ++ [10%N] ++
  u "4) 답변 마지막 줄에 괄호로 사용한 근거 번호를 적어 주세요. 예: (근거 1, 3)" ++ [10%N].

Definition missing_key_message : pystr :=
  u "OPENAI_API_KEY 환경 변수가 설정되어 있지 않습니다. .env 파일 또는 OS 환경변수에서 확인해주세요.".

Definition default_model : pystr := str "gpt-4o-mini".

(** A chat completion request as [generate_answer_with_context] sends it. *)
Record request := mkRequest {
  req_api_key : pystr;
  req_model : pystr;
  req_system : pystr;
  req_user : pystr;
  req_temperature : Q
}.

(** What the service does with a request: it answers with the message
    contents of its choices ([None] for a null content), or the call raises
    an exception (a subclass of [Exception]). *)
Inductive reply : Type :=
| Response (choices : list (option pystr))
| Fails (e : exn).

(** The process state the module reads and writes: the module-level
    [_client] (a client holds its API key), the environment variable
    [OPENAI_API_KEY], and the requests sent so far. *)
Record world := mkWorld {
  cached_client : option pystr;
  env_api_key : option pystr;
  sent : list request
}.

Definition RuntimeError (message : pystr) : exn :=
  mkExn (str "RuntimeError") message false.
Definition IndexError : exn :=
  mkExn (str "IndexError") (str "list index out of range") false.
Definition AttributeError : exn :=
  mkExn (str "AttributeError")
        (str "'NoneType' object has no attribute 'strip'") false.

Definition get_client (w : world) : result pystr * world :=
  match cached_client w with
  | Some client => (Returned client, w)
  | None =>
      match env_api_key w with
      | Some api_key =>
          if truthy api_key
          then (Returned api_key, mkWorld (Some api_key) (env_api_key w) (sent w))
          else (Raised (RuntimeError missing_key_message), w)
      | None => (Raised (RuntimeError missing_key_message), w)
      end
  end.

(** ["[근거 i+1]\n" + chunk] for every chunk, joined by empty lines. *)
Fixpoint numbered (i : nat) (context_chunks : list pystr) : list pystr :=
  match context_chunks with
  | [] => []
  | chunk :: rest =>
      (u "[근거 " ++ decimal (i + 1) ++ str "]" ++ [10%N] ++ chunk)
      :: numbered (S i) rest
  end.

Definition context_text (context_chunks : list pystr) : pystr :=
  join [10%N; 10%N] (numbered 0 context_chunks).

Definition user_prompt (context_chunks : list pystr) (question : pystr) : pystr :=
  user_prompt_head ++ context_text context_chunks ++ user_prompt_middle
  ++ question ++ user_prompt_tail.

(** The two strings of the [except] clauses. *)
Definition openai_failure (e : exn) : pystr :=
  u "[LLM 호출 실패] " ++ exn_name e ++ str ": " ++ exn_message e.
Definition unknown_failure (e : exn) : pystr :=
  u "[LLM 호출 중 알 수 없는 오류] " ++ exn_message e.

Definition handled (e : exn) : pystr :=
  if exn_is_openai e then openai_failure e else unknown_failure e.

Section Generate.

(** The remote chat completion service. *)
Variable service : request -> reply.

Definition generate_answer_with_context (w : world) (question : pystr)
    (context_chunks : list pystr) (model : pystr) : result pystr * world :=
  match get_client w with
  | (Raised e, w) => (Raised e, w)
  | (Returned client, w) =>
      let req := mkRequest client model system_prompt
                   (user_prompt context_chunks question) (15 # 100) in
      let w := mkWorld (cached_client w) (env_api_key w) (sent w ++ [req]) in
      match service req with
      | Fails e => (Returned (handled e), w)
      | Response [] => (Returned (handled IndexError), w)
      | Response (None :: _) => (Returned (handled AttributeError), w)
      | Response (Some content :: _) => (Returned (strip content), w)
      end
  end.

End Generate.

(** A client is at hand: cached, or the environment holds a key. *)
Definition client_available (w : world) : Prop :=
  match cached_client w, env_api_key w with
  | Some _, _ => True
  | None, Some api_key => truthy api_key = true
  | None, None => False
  end.

(** A fresh process without the environment variable. *)
Definition no_key : world := mkWorld None None [].

End LLM.

(** ** The confidence gate (QA branch of [views.document_detail]) *)

Module Gate.

Import Fusion.

Local Open Scope Q_scope.

Definition refusal_message : pystr :=
  u "질문과 관련된 내용을 문서에서 충분히 찾지 못했습니다." ++ [10%N] ++
  u "질문을 조금 더 구체적으로 바꾸거나, 다른 문서를 참고하는 것이 좋겠습니다.".

Definition no_paragraph_message : pystr :=
  u "질문과 관련된 문단을 문서에서 찾지 못했습니다.".

Definition no_input_message : pystr :=
  u "질문이 비어 있거나, 문서 내용이 없습니다.".

(** [round(x)] of Python 3 as an integer: to the nearest, halves to even. *)
Definition py_round (x : Q) : Z :=
  let f := Qfloor x in
  match Qcompare (x - inject_Z f) (1 # 2) with
  | Lt => f
  | Gt => (f + 1)%Z
  | Eq => if Z.even f then f else (f + 1)%Z
  end.

Definition threshold : Q := 35 # 100.

(** A row of [QuestionHistory]. *)
Record history_row := mkRow {
  row_question : pystr;
  row_answer : pystr;
  row_confidence : option Z
}.

(** The state the view works on: the LLM client's process state and the
    history rows of the document, in the order of their creation. *)
Record portal := mkPortal {
  llm : LLM.world;
  history : list history_row
}.

(** What the view hands to the template. *)
Record page := mkPage {
  question : option pystr;
  llm_answer : option pystr;
  search_results : list hit;
  confidence : option Z
}.

Section View.

Variable service : LLM.request -> LLM.reply.

(** The [if search_results: ... else: ...] block: confidence, gate, answer,
    history row. *)
Definition answer_question (p : portal) (question : pystr)
    (search_results : list hit) : result page * portal :=
  match search_results with
  | top :: _ =>
      let top_score := score top in
      let confidence := py_round (top_score * 100) in
      let answered :=
        if Qlt_le_dec top_score threshold
        then (Returned refusal_message, llm p)
        else LLM.generate_answer_with_context service (llm p) question
               (map text search_results) LLM.default_model in
      match answered with
      | (Raised e, w) => (Raised e, mkPortal w (history p))
      | (Returned llm_answer, w) =>
          (Returned (mkPage (Some question) (Some llm_answer) search_results
                       (Some confidence)),
           mkPortal w (history p
                       ++ [mkRow question llm_answer (Some confidence)]))
      end
  | [] =>
      (Returned (mkPage (Some question) (Some no_paragraph_message) [] None), p)
  end.

Variable bm25_scores : list pystr -> pystr -> list Q.
Variable semantic_scores : list pystr -> pystr -> list Q.

(** The [mode == "qa"] branch. [posted] is the posted question, if any;
    [None] as a result: the search left the modelled arithmetic. *)
Definition document_detail_qa (p : portal) (doc_content : pystr)
    (chunks : list pystr) (posted : option pystr)
    : option (result page * portal) :=
  let question := strip (match posted with Some q => q | None => [] end) in
  if truthy question && truthy doc_content then
    match hybrid_chunk_search bm25_scores semantic_scores chunks question 5
            (6 # 10) with
    | None => None
    | Some search_results => Some (answer_question p question search_results)
    end
  else
    Some (Returned (mkPage (Some question) (Some no_input_message) [] None), p).

(** The outcome of the gate when it lets the question through: the
    language model is called with the texts of the results, and its answer
    is shown and saved with the confidence. *)
Definition passed_to_llm (p : portal) (question : pystr)
    (search_results : list hit) (confidence : Z) : result page * portal :=
  match LLM.generate_answer_with_context service (llm p) question
          (map text search_results) LLM.default_model with
  | (Raised e, w) => (Raised e, mkPortal w (history p))
  | (Returned llm_answer, w) =>
      (Returned (mkPage (Some question) (Some llm_answer) search_results
                   (Some confidence)),
       mkPortal w (history p ++ [mkRow question llm_answer (Some confidence)]))
  end.


End View.

End Gate.

(** ** Shared helpers of the remaining modules *)

(** [a == b] on strings. *)
Definition pystr_eqb (a b : pystr) : bool :=
  if list_eq_dec N.eq_dec a b then true else false.

(** [s[i:]]. *)
Definition slice_from {A : Type} (s : list A) (i : Z) : list A :=
  skipn (Z.to_nat (clamp_index (len s) i)) s.

(** [str(n)] for an integer. *)
Definition decimal_int (n : Z) : pystr :=
  if (n <? 0)%Z then str "-" ++ decimal (Z.abs_nat n) else decimal (Z.abs_nat n).

(** ** The tokenizer and the overlap score
       ([rag_pipeline._normalize], [rag_pipeline._overlap_score]) *)

Module Tokenizer.

(** [s.split()]: the maximal runs of characters that are not white space.
    [cur] is the run being read. *)
Fixpoint split_acc (s cur : pystr) : list pystr :=
  match s with
  | [] => if truthy cur then [cur] else []
  | c :: s' =>
      if isspace c
      then (if truthy cur then cur :: split_acc s' [] else split_acc s' [])
      else split_acc s' (cur ++ [c])
  end.

Definition split (s : pystr) : list pystr := split_acc s [].

(** A digit, a lower-case ASCII letter or a Hangul syllable. *)
Definition token_char (c : N) : bool :=
  ((48 <=? c) && (c <=? 57) || (97 <=? c) && (c <=? 122)
   || (44032 <=? c) && (c <=? 55203))%N.

(** The class [[0-9a-z가-힣\s]] of the regular expression. *)
Definition kept (c : N) : bool := token_char c || isspace c.

(** [re.sub(r"[^0-9a-z가-힣\s]", " ", text)]. *)
Definition blank_others (text : pystr) : pystr :=
  map (fun c => if kept c then c else 32%N) text.

(** The tokens of a [Counter] in the order of their first occurrence;
    [seen] are the tokens met so far. *)
Fixpoint keys (tokens seen : list pystr) : list pystr :=
  match tokens with
  | [] => []
  | t :: rest =>
      if in_dec (list_eq_dec N.eq_dec) t seen then keys rest seen
      else t :: keys rest (t :: seen)
  end.

(** [Counter(tokens)[t]]. *)
Definition count (t : pystr) (tokens : list pystr) : nat :=
  count_occ (list_eq_dec N.eq_dec) tokens t.

(** The loop [for t in q_counts: if t in c_counts: common += min(...)]. *)
Definition common_count (q_tokens c_tokens : list pystr) : nat :=
  fold_left
    (fun common t =>
       if (0 <? count t c_tokens)%nat
       then (common + Nat.min (count t q_tokens) (count t c_tokens))%nat
       else common)
    (keys q_tokens []) 0%nat.

(** The value of [_overlap_score]: [0.0], or the quotient
    [common / (q_len ** 0.5 * c_len ** 0.5)], kept as its three integers
    (the square roots are not rational). *)
Inductive overlap : Type :=
| NoOverlap
| Ratio (common q_len c_len : nat).

Section Normalize.

(** [str.lower], a library function. *)
Variable lower : pystr -> pystr.

Definition _normalize (text : pystr) : list pystr :=
  if negb (truthy text) then []
  else split (blank_others (lower text)).

(** [denom] is the product of two square roots of positive lengths, so the
    test [denom == 0] never holds after the first test. *)
Definition _overlap_score (question chunk : pystr) : overlap :=
  let q_tokens := _normalize question in
  let c_tokens := _normalize chunk in
  if negb (truthy q_tokens) || negb (truthy c_tokens) then NoOverlap
  else Ratio (common_count q_tokens c_tokens) (length q_tokens)
             (length c_tokens).

End Normalize.

(** [str.lower] on ASCII text. *)
Definition ascii_lower (text : pystr) : pystr :=
  map (fun c => if ((65 <=? c) && (c <=? 90))%N then (c + 32)%N else c) text.

(** Not white space. *)
Definition nonspace (c : N) : bool := negb (isspace c).

(** The smaller of the two counts of a token. *)
Definition both (q c : list pystr) (t : pystr) : nat :=
  Nat.min (count t q) (count t c).

End Tokenizer.

(** ** The summarizer ([summarizer.py]) *)

Module Summarizer.

Local Open Scope Z_scope.

Definition no_content_message : pystr :=
  u "요약할 문서 내용이 없습니다.".

Definition no_chunks_message : pystr :=
  u "이 문서에는 청크 데이터가 없습니다.".

Definition gpt_failure_message : pystr :=
  u "GPT 요약 생성 중 오류가 발생했습니다.".

Definition gpt_question_head : pystr :=
  u "다음 문서를 기반으로, 반드시 ".

Definition gpt_question_tail : pystr :=
  u "줄 이하로 한국어로 핵심만 요약해줘. 불필요한 설명 없이 중요한 내용만 정리해줘.".

Definition build_summary_context (raw_text : pystr) (max_chars : Z)
    : list pystr :=
  if negb (truthy raw_text) then []
  else
    let text := strip raw_text in
    if len text <=? max_chars then [text]
    else
      let half := max_chars / 2 in
      let head := slice_to text half in
      let tail := slice_from text (- half) in
      if negb (pystr_eqb (strip head) (strip tail)) then [head; tail]
      else [head].

Definition summarize_document_chunks (chunks : list pystr) (top_k : Z)
    : list pystr :=
  if negb (truthy chunks) then []
  else
    let filtered :=
      map strip
        (filter (fun c => truthy c && (20 <? len (strip c))) chunks) in
    if negb (truthy filtered) then []
    else slice_to filtered top_k.

(** An [UploadedDocument] as the summarizer and the views read it: its
    text and the texts of its chunks in [chunk_index] order. *)
Record document := mkDocument {
  content : pystr;
  chunks : list pystr
}.

Section Gpt.

Variable service : LLM.request -> LLM.reply.

(** [document] is [None] for a missing document. *)
Definition summarize_document_with_gpt (w : LLM.world)
    (document : option document) (max_lines : Z) : pystr * LLM.world :=
  match document with
  | None => (no_content_message, w)
  | Some doc =>
      if negb (truthy (content doc)) then (no_content_message, w)
      else if negb (truthy (chunks doc)) then (no_chunks_message, w)
      else
        let question :=
          gpt_question_head ++ decimal_int max_lines ++ gpt_question_tail in
        match LLM.generate_answer_with_context service w question
                (slice_to (chunks doc) 5) LLM.default_model with
        | (Returned summary, w) => (summary, w)
        | (Raised _, w) => (gpt_failure_message, w)
        end
  end.

End Gpt.

End Summarizer.

(** ** The document views ([views.document_detail], [views.document_summary]) *)

Module Views.

Import Summarizer.

Local Open Scope Z_scope.

Definition summary_question : pystr :=
  u "다음 문서 내용을 보고, 대학생이 이해하기 쉽게 5줄 이내의 한국어로 핵심만 요약해줘.".

Definition partial_notice : pystr :=
  [10%N] ++ u "..." ++ [10%N] ++ u "(일부만 표시한 요약입니다)".

Definition view_no_chunks_message : pystr :=
  u "이 문서에는 청크 데이터가 없습니다.".

Definition view_no_content_message : pystr :=
  u "이 문서에는 저장된 텍스트 내용이 없습니다.".

(** The request as the view reads it: the method, and of a POST the fields
    [mode] and [question] when present. *)
Inductive http_request : Type :=
| GET
| POST (mode : option pystr) (posted_question : option pystr).

(** The context handed to the template. [history] is newest first. *)
Record context := mkContext {
  summary_text : option pystr;
  question : option pystr;
  llm_answer : option pystr;
  search_results : list Fusion.hit;
  confidence : option Z;
  history : list Gate.history_row
}.

(** The summary shown when the language-model call raises. *)
Definition fallback_summary (doc_content : pystr) : pystr :=
  let text := strip doc_content in
  let max_len := 600 in
  if max_len <? len text then slice_to text max_len ++ partial_notice
  else text.

Section Detail.

Variable service : LLM.request -> LLM.reply.
Variable bm25_scores : list pystr -> pystr -> list Q.
Variable semantic_scores : list pystr -> pystr -> list Q.

(** The [mode == "summary"] branch. [summarize_document_chunks] raises
    nothing on strings, so its [except] branch is left out. *)
Definition summary_mode (w : LLM.world) (doc : document) : pystr * LLM.world :=
  if truthy (content doc) then
    let chunk_texts := chunks doc in
    if truthy chunk_texts then
      let key_chunks := summarize_document_chunks chunk_texts 5 in
      match LLM.generate_answer_with_context service w summary_question
              key_chunks LLM.default_model with
      | (Returned summary, w) => (summary, w)
      | (Raised _, w) => (fallback_summary (content doc), w)
      end
    else (view_no_chunks_message, w)
  else (view_no_content_message, w).

Definition shown_history (p : Gate.portal) : list Gate.history_row :=
  rev (Gate.history p).

(** [document_detail] for a document that exists. [None]: the search left
    the modelled arithmetic. *)
Definition document_detail (p : Gate.portal) (doc : document)
    (request : http_request) : option (result context * Gate.portal) :=
  let untouched :=
    Some (Returned (mkContext None None None [] None (shown_history p)), p) in
  match request with
  | GET => untouched
  | POST mode posted_question =>
      let mode := match mode with Some m => m | None => str "qa" end in
      if pystr_eqb mode (str "summary") then
        let (summary, w) := summary_mode (Gate.llm p) doc in
        let p := Gate.mkPortal w (Gate.history p) in
        Some (Returned (mkContext (Some summary) None None [] None
                          (shown_history p)), p)
      else if pystr_eqb mode (str "qa") then
        match Gate.document_detail_qa service bm25_scores semantic_scores p
                (content doc) (chunks doc) posted_question with
        | None => None
        | Some (Raised e, p) => Some (Raised e, p)
        | Some (Returned page, p) =>
            Some (Returned (mkContext None (Gate.question page)
                              (Gate.llm_answer page)
                              (Gate.search_results page)
                              (Gate.confidence page) (shown_history p)), p)
        end
      else untouched
  end.

End Detail.

(** [document_summary]: the chunks shown and their text joined by empty
    lines. *)
Definition document_summary (doc : document) : list pystr * pystr :=
  let chunk_texts := chunks doc in
  let summary_chunks :=
    if truthy chunk_texts then summarize_document_chunks chunk_texts 3
    else [] in
  let summary_text :=
    if truthy summary_chunks then join [10%N; 10%N] summary_chunks else [] in
  (summary_chunks, summary_text).

End Views.

(** * Properties *)

Example utf8_decode_hangul : u "근거 1" = [44540; 44144; 32; 49]%N.
Proof. reflexivity. Qed.

(** ** The chunker *)

Module ChunkerFacts.

Import Chunker.

Local Open Scope Z_scope.

Example chunks_1000 :
  split_into_chunks 2 (repeat 97%N 1000) 600 100
  = Some (Returned [repeat 97%N 600; repeat 97%N 500]).
Proof. vm_compute. reflexivity. Qed.

(** *** Slices *)

Lemma len_nonneg {A : Type} (s : list A) : 0 <= len s.
Proof. unfold len. lia. Qed.

Lemma slice_inside {A : Type} (s : list A) (i j : Z) :
  0 <= i -> i <= j -> j <= len s ->
  slice s i j = firstn (Z.to_nat (j - i)) (skipn (Z.to_nat i) s).
Proof.
  intros Hi Hij Hj. unfold slice, clamp_index.
  destruct (Z.ltb_spec i 0); [lia|].
  destruct (Z.ltb_spec j 0); [lia|].
  rewrite !Z.min_l by lia. reflexivity.
Qed.

Lemma slice_len {A : Type} (s : list A) (i j : Z) :
  0 <= i -> i <= j -> j <= len s -> len (slice s i j) = j - i.
Proof.
  intros Hi Hij Hj. rewrite slice_inside by assumption.
  unfold len in *. rewrite length_firstn, length_skipn. lia.
Qed.

Lemma slice_all {A : Type} (s : list A) : slice s 0 (len s) = s.
Proof.
  rewrite slice_inside by (pose proof (len_nonneg s); lia).
  simpl. unfold len. rewrite Z.sub_0_r, Nat2Z.id. apply firstn_all.
Qed.

Lemma firstn_plus {A : Type} (a b : nat) (l : list A) :
  firstn (a + b) l = firstn a l ++ firstn b (skipn a l).
Proof.
  revert l. induction a as [|a IH]; intros l; [reflexivity|].
  destruct l as [|x l]; simpl.
  - rewrite firstn_nil. reflexivity.
  - rewrite IH. reflexivity.
Qed.

Lemma slice_app {A : Type} (s : list A) (i j k : Z) :
  0 <= i -> i <= j -> j <= k -> k <= len s ->
  slice s i j ++ slice s j k = slice s i k.
Proof.
  intros Hi Hij Hjk Hk.
  rewrite !slice_inside by lia.
  replace (Z.to_nat (k - i)) with (Z.to_nat (j - i) + Z.to_nat (k - j))%nat by lia.
  rewrite firstn_plus. f_equal.
  rewrite skipn_skipn.
  replace (Z.to_nat (j - i) + Z.to_nat i)%nat with (Z.to_nat j) by lia.
  reflexivity.
Qed.

Lemma skipn_slice {A : Type} (s : list A) (i j k : Z) :
  0 <= i -> 0 <= k -> i + k <= j -> j <= len s ->
  skipn (Z.to_nat k) (slice s i j) = slice s (i + k) j.
Proof.
  intros Hi Hk Hij Hj.
  rewrite <- (slice_app s i (i + k) j) by lia.
  rewrite skipn_app.
  assert (Hl : length (slice s i (i + k)) = Z.to_nat k).
  { assert (H : len (slice s i (i + k)) = i + k - i) by (apply slice_len; lia).
    unfold len in H. lia. }
  rewrite <- Hl at 1. rewrite skipn_all. rewrite Hl, Nat.sub_diag. reflexivity.
Qed.

Lemma firstn_slice {A : Type} (s : list A) (i j k : Z) :
  0 <= i -> 0 <= k -> i + k <= j -> j <= len s ->
  firstn (Z.to_nat k) (slice s i j) = slice s i (i + k).
Proof.
  intros Hi Hk Hij Hj.
  rewrite <- (slice_app s i (i + k) j) by lia.
  assert (Hl : length (slice s i (i + k)) = Z.to_nat k).
  { assert (H : len (slice s i (i + k)) = i + k - i) by (apply slice_len; lia).
    unfold len in H. lia. }
  rewrite <- Hl at 1. rewrite firstn_app, firstn_all, Nat.sub_diag.
  simpl. apply app_nil_r.
Qed.

(** *** Trimming *)

Lemma lstrip_length (s : pystr) : (length (lstrip s) <= length s)%nat.
Proof.
  induction s as [|c s IH]; simpl; [lia|].
  destruct (isspace c); simpl; lia.
Qed.

Lemma strip_len (s : pystr) : len (strip s) <= len s.
Proof.
  unfold strip, rstrip, len. rewrite length_rev.
  pose proof (lstrip_length (rev (lstrip s))) as H1.
  pose proof (lstrip_length s) as H2.
  rewrite length_rev in H1. lia.
Qed.

Lemma lstrip_idem (s : pystr) : lstrip (lstrip s) = lstrip s.
Proof.
  induction s as [|c s IH]; simpl; [reflexivity|].
  destruct (isspace c) eqn:E; [assumption|]. simpl. rewrite E. reflexivity.
Qed.

Lemma lstrip_app_nonspace (l r : pystr) (c : N) :
  isspace c = false -> lstrip (l ++ c :: r) = lstrip l ++ c :: r.
Proof.
  intros Hc. induction l as [|d l IH]; simpl.
  - rewrite Hc. reflexivity.
  - destruct (isspace d); [assumption | reflexivity].
Qed.

Lemma lstrip_rstrip (s : pystr) : lstrip s = s -> lstrip (rstrip s) = rstrip s.
Proof.
  intros Hs. destruct s as [|c s]; [reflexivity|].
  simpl in Hs. destruct (isspace c) eqn:E.
  - pose proof (lstrip_length s) as H. rewrite Hs in H. simpl in H. lia.
  - unfold rstrip. simpl rev.
    rewrite lstrip_app_nonspace by assumption.
    rewrite rev_app_distr. simpl. rewrite E. reflexivity.
Qed.

Lemma strip_idem (s : pystr) : strip (strip s) = strip s.
Proof.
  assert (H : lstrip (strip s) = strip s).
  { unfold strip. apply lstrip_rstrip, lstrip_idem. }
  unfold strip at 1. rewrite H.
  unfold strip, rstrip. rewrite rev_involutive, lstrip_idem. reflexivity.
Qed.

Lemma truthy_len {A : Type} (s : list A) : truthy s = true <-> 0 < len s.
Proof.
  unfold len. destruct s; simpl; split; intros; try lia; congruence.
Qed.

(** *** The loop and its windows *)

Lemma emit_cons (text : pystr) (w : Z * Z) (ws : list (Z * Z)) :
  emit text (w :: ws) =
  (if truthy (strip (window_text text w))
   then [strip (window_text text w)] else []) ++ emit text ws.
Proof.
  unfold emit. simpl. destruct (truthy (strip (window_text text w))); reflexivity.
Qed.

Lemma split_loop_windows (fuel : nat) (text : pystr) (max_chars overlap : Z) :
  forall start chunks,
    split_loop fuel text max_chars overlap start chunks =
    option_map (fun ws => Returned (chunks ++ emit text ws))
      (windows fuel (len text) max_chars overlap start).
Proof.
  induction fuel as [|fuel IH]; intros start chunks; simpl.
  - destruct (start <? len text); simpl; [reflexivity|].
    rewrite app_nil_r. reflexivity.
  - destruct (start <? len text); simpl; [|rewrite app_nil_r; reflexivity].
    set (e := Z.min (start + max_chars) (len text)).
    destruct (e =? len text).
    + simpl. rewrite emit_cons. unfold window_text. simpl.
      destruct (truthy (strip (slice text start e)));
        simpl; rewrite ?app_nil_r; reflexivity.
    + rewrite IH.
      destruct (windows fuel (len text) max_chars overlap (Z.max 0 (e - overlap)))
        as [ws|]; simpl; [|reflexivity].
      rewrite emit_cons. unfold window_text. simpl.
      destruct (truthy (strip (slice text start e)));
        simpl; rewrite <- ?app_assoc; reflexivity.
Qed.

Lemma split_into_chunks_windows (fuel : nat) (text : pystr) (max_chars overlap : Z) :
  split_into_chunks fuel text max_chars overlap =
  option_map (fun ws => Returned (emit (strip text) ws))
    (windows fuel (len (strip text)) max_chars overlap 0).
Proof.
  unfold split_into_chunks. destruct (truthy (strip text)) eqn:E; simpl.
  - apply split_loop_windows.
  - destruct (strip text); [|discriminate].
    destruct fuel; reflexivity.
Qed.

Lemma windows_more_fuel (n max_chars overlap : Z) (fuel fuel' : nat) :
  (fuel <= fuel')%nat ->
  forall start ws,
    windows fuel n max_chars overlap start = Some ws ->
    windows fuel' n max_chars overlap start = Some ws.
Proof.
  revert fuel'. induction fuel as [|fuel IH]; intros fuel' Hle start ws; simpl.
  - destruct (start <? n) eqn:E; simpl; [discriminate|].
    intros H. destruct fuel'; simpl; rewrite E; exact H.
  - destruct fuel' as [|fuel']; [lia|]. simpl.
    destruct (start <? n); simpl; [|trivial].
    destruct (Z.min (start + max_chars) n =? n); [trivial|].
    destruct (windows fuel n max_chars overlap _) as [ws'|] eqn:E; [|discriminate].
    intros H. rewrite (IH fuel' ltac:(lia) _ _ E). exact H.
Qed.

(** The walk from [start] ends within [fuel] iterations whenever [fuel] steps
    of [max_chars - overlap] characters reach the end of the text. *)
Lemma windows_terminate (n max_chars overlap : Z) (fuel : nat) :
  overlap < max_chars ->
  forall start,
    0 <= start ->
    n <= start + Z.of_nat fuel * (max_chars - overlap) ->
    exists ws, windows fuel n max_chars overlap start = Some ws
               /\ (length ws <= fuel)%nat.
Proof.
  intros Hd. induction fuel as [|fuel IH]; intros start H0 Hn; simpl.
  - destruct (Z.ltb_spec start n); [lia|]. simpl. exists []. split; [reflexivity|simpl; lia].
  - destruct (Z.ltb_spec start n); simpl; [|exists []; split; [reflexivity|simpl; lia]].
    destruct (Z.eqb_spec (Z.min (start + max_chars) n) n) as [He|He].
    + eexists. split; [reflexivity|simpl; lia].
    + destruct (IH (Z.max 0 (Z.min (start + max_chars) n - overlap)))
        as (ws & Hws & Hlen); [lia|nia|].
      rewrite Hws. eexists. split; [reflexivity|simpl; lia].
Qed.

Lemma ceil_div_reaches (a b : Z) : 0 < b -> a <= ceil_div a b * b.
Proof.
  intros Hb. unfold ceil_div.
  pose proof (Z.div_mod (a + b - 1) b ltac:(lia)) as H.
  pose proof (Z.mod_pos_bound (a + b - 1) b Hb). nia.
Qed.

Lemma ceil_div_nonneg (a b : Z) : 0 <= a -> 0 < b -> 0 <= ceil_div a b.
Proof.
  intros Ha Hb. unfold ceil_div. apply Z.div_pos; lia.
Qed.

Lemma ceil_div_mono (a a' b : Z) : 0 < b -> a <= a' -> ceil_div a b <= ceil_div a' b.
Proof.
  intros Hb Ha. unfold ceil_div. apply Z.div_le_mono; lia.
Qed.

(** *** Windows of a valid configuration *)

Section Walk.

Variables n max_chars overlap : Z.
Hypothesis Hvalid : 0 <= overlap < max_chars.

Lemma windows_walk (fuel : nat) :
  forall start ws,
    0 <= start < n ->
    windows fuel n max_chars overlap start = Some ws ->
    walk n max_chars overlap start ws.
Proof.
  induction fuel as [|fuel IH]; intros start ws Hs; simpl;
    destruct (Z.ltb_spec start n); try lia; simpl; [discriminate|].
  destruct (Z.eqb_spec (Z.min (start + max_chars) n) n) as [He|He].
  - intros Hw. injection Hw as <-. rewrite He. apply walk_last; lia.
  - assert (Hlt : start + max_chars < n) by lia.
    rewrite Z.min_l by lia. rewrite Z.max_r by lia.
    destruct (windows fuel n max_chars overlap (start + max_chars - overlap))
      as [ws'|] eqn:E; [|discriminate].
    intros Hw. injection Hw as <-.
    apply walk_step; [lia|lia|]. apply IH; [lia|exact E].
Qed.

Lemma walk_head (start : Z) (ws : list (Z * Z)) :
  walk n max_chars overlap start ws ->
  exists e rest, ws = (start, e) :: rest /\ 0 <= start < e /\ e <= n
                 /\ (e = n \/ e = start + max_chars /\ e < n).
Proof.
  intros [s Hs Hn | s ws' Hs Hn Hw].
  - exists n, []. intuition lia.
  - exists (s + max_chars), ws'. intuition lia.
Qed.

Lemma walk_bounds (start : Z) (ws : list (Z * Z)) :
  walk n max_chars overlap start ws ->
  Forall (fun w => 0 <= fst w < snd w /\ snd w <= n) ws.
Proof.
  induction 1 as [s Hs Hn | s ws Hs Hn Hw IH].
  - constructor; [simpl; lia | constructor].
  - constructor; [simpl; lia | exact IH].
Qed.

Lemma walk_pairs (start : Z) (ws : list (Z * Z)) :
  walk n max_chars overlap start ws ->
  forall i s1 e1 s2 e2,
    nth_error ws i = Some (s1, e1) ->
    nth_error ws (S i) = Some (s2, e2) ->
    0 <= s1 /\ e1 = s1 + max_chars /\ s2 = e1 - overlap
    /\ s2 < e2 /\ e1 < e2 /\ e2 <= n.
Proof.
  induction 1 as [s Hs Hn | s ws Hs Hn Hw IH]; intros i s1 e1 s2 e2 H1 H2.
  - simpl in H2. destruct i; discriminate.
  - destruct i as [|i].
    + simpl in H1, H2. injection H1 as <- <-.
      destruct (walk_head _ _ Hw) as (e & rest & -> & Hb & He & Hfull).
      simpl in H2. injection H2 as <- <-. lia.
    + simpl in H1. exact (IH i s1 e1 s2 e2 H1 H2).
Qed.

Lemma walk_skip_overlap (text : pystr) (start : Z) (ws : list (Z * Z)) :
  n = len text ->
  walk n max_chars overlap start ws ->
  start + overlap <= n ->
  concat (map (fun w => skipn (Z.to_nat overlap) (window_text text w)) ws)
  = slice text (start + overlap) n.
Proof.
  intros Hn. induction 1 as [s Hs Hm | s ws Hs Hm Hw IH]; intros Hso; simpl.
  - rewrite app_nil_r. unfold window_text. simpl.
    apply skipn_slice; lia.
  - rewrite IH by lia. unfold window_text. simpl.
    rewrite skipn_slice by lia.
    replace (s + max_chars - overlap + overlap) with (s + max_chars) by lia.
    apply slice_app; lia.
Qed.

Lemma walk_reconstruct (text : pystr) (start : Z) (ws : list (Z * Z)) :
  n = len text ->
  walk n max_chars overlap start ws ->
  start = 0 ->
  reconstruct overlap (map (window_text text) ws) = text.
Proof.
  intros Hn Hw. destruct Hw as [s Hs Hm | s ws Hs Hm Hw]; intros ->; simpl.
  - rewrite app_nil_r. unfold window_text. simpl. rewrite Hn. apply slice_all.
  - rewrite map_map.
    rewrite (walk_skip_overlap text _ _ Hn Hw) by lia.
    unfold window_text. simpl.
    replace (max_chars - overlap + overlap) with max_chars by lia.
    rewrite slice_app by lia. rewrite Hn. apply slice_all.
Qed.

Lemma window_overlap (text : pystr) (s1 e1 s2 e2 : Z) :
  n = len text ->
  0 <= s1 -> e1 = s1 + max_chars -> s2 = e1 - overlap ->
  e1 < e2 -> e2 <= n ->
  overlap_by overlap (window_text text (s1, e1)) (window_text text (s2, e2)).
Proof.
  intros Hn H1 He Hs2 H12 H2. unfold overlap_by, window_text. simpl.
  assert (L1 : len (slice text s1 e1) = e1 - s1) by (apply slice_len; lia).
  assert (L2 : len (slice text s2 e2) = e2 - s2) by (apply slice_len; lia).
  repeat split; try lia.
  unfold suffix, prefix.
  replace (length (slice text s1 e1) - Z.to_nat overlap)%nat
    with (Z.to_nat (max_chars - overlap)) by (unfold len in L1; lia).
  rewrite skipn_slice by lia. rewrite firstn_slice by lia.
  f_equal; lia.
Qed.

Lemma emit_trimmed (text : pystr) (start : Z) (ws : list (Z * Z)) :
  n = len text ->
  walk n max_chars overlap start ws ->
  Forall (fun w => strip (window_text text w) = window_text text w) ws ->
  emit text ws = map (window_text text) ws.
Proof.
  intros Hn Hw Ht. apply walk_bounds in Hw. unfold emit.
  induction ws as [|w ws IH]; [reflexivity|].
  inversion Hw as [|? ? Hb Hw']; subst. inversion Ht as [|? ? Hs Ht']; subst.
  simpl. rewrite Hs.
  assert (Hnz : truthy (window_text text w) = true).
  { apply truthy_len. unfold window_text. rewrite slice_len; lia. }
  rewrite Hnz. f_equal. apply IH; assumption.
Qed.

End Walk.

(** *** Configurations with [overlap >= max_chars] *)

Lemma never_raises (fuel : nat) (text : pystr) (max_chars overlap : Z) (e : exn) :
  split_into_chunks fuel text max_chars overlap <> Some (Raised e).
Proof.
  rewrite split_into_chunks_windows.
  destruct (windows fuel _ max_chars overlap 0); simpl; congruence.
Qed.

Lemma windows_stuck (fuel : nat) : windows fuel 2 1 1 0 = None.
Proof.
  induction fuel as [|fuel IH]; [reflexivity|].
  simpl. change (Z.max 0 0) with 0. rewrite IH. reflexivity.
Qed.

(** C1, counterexample: with [max_chars = 1] and [overlap = 1] the text
    ["ab"] is not rejected; the loop restarts at position 0 for ever. *)
Lemma overlap_equal_not_rejected :
  loops_forever (str "ab") 1 1 /\ ~ rejects (str "ab") 1 1.
Proof.
  split.
  - intros fuel. rewrite split_into_chunks_windows.
    change (len (strip (str "ab"))) with 2.
    rewrite windows_stuck. reflexivity.
  - intros (fuel & e & H). exact (never_raises _ _ _ _ _ H).
Qed.

(** C1, as the code has it: the chunker has no validation of [overlap]
    against [max_chars] and never reports an error. With
    [overlap >= max_chars] no call raises, and a call whose trimmed text has
    at most [max_chars] characters returns after at most one iteration: the
    trimmed text as the only chunk, or no chunk for an empty text. *)
Theorem split_into_chunks_no_validation (text : pystr) (max_chars overlap : Z) :
  max_chars <= overlap ->
  ~ rejects text max_chars overlap /\
  (len (strip text) <= max_chars ->
   forall fuel, (1 <= fuel)%nat ->
     split_into_chunks fuel text max_chars overlap
     = Some (Returned (if truthy (strip text) then [strip text] else []))).
Proof.
  intros _. split.
  - intros (fuel & e & H). exact (never_raises _ _ _ _ _ H).
  - intros Hfit fuel Hfuel. unfold split_into_chunks.
    destruct (truthy (strip text)) eqn:E; simpl; [|reflexivity].
    destruct fuel as [|fuel]; [lia|]. simpl.
    apply truthy_len in E.
    destruct (Z.ltb_spec 0 (len (strip text))); [|lia]. simpl.
    rewrite Z.min_r by lia. rewrite Z.eqb_refl.
    rewrite slice_all, strip_idem.
    destruct (strip text); [discriminate|reflexivity].
Qed.

(** [split_into_chunks_no_validation] at a concrete input. *)
Lemma split_into_chunks_no_validation_witness :
  2 <= 5 /\ ~ rejects (str " a ") 2 5 /\
  split_into_chunks 1 (str " a ") 2 5 = Some (Returned [str "a"]).
Proof.
  split; [lia|].
  destruct (split_into_chunks_no_validation (str " a ") 2 5 ltac:(lia)) as [H1 H2].
  split; [exact H1|].
  exact (H2 ltac:(vm_compute; discriminate) 1%nat (le_n 1)).
Defined.

(** *** Termination *)

(** C7: for [overlap < max_chars] the chunker returns, and its loop runs at
    most [ceil(len(text) / (max_chars - overlap))] times: the loop visits
    one window per iteration, the list of windows is no longer than the
    bound, and that much fuel (or more) yields the chunks. *)
Theorem split_into_chunks_terminates (text : pystr) (max_chars overlap : Z) :
  overlap < max_chars ->
  let bound := Z.to_nat (ceil_div (len text) (max_chars - overlap)) in
  exists ws,
    windows bound (len (strip text)) max_chars overlap 0 = Some ws /\
    (length ws <= bound)%nat /\
    forall fuel, (bound <= fuel)%nat ->
      split_into_chunks fuel text max_chars overlap
      = Some (Returned (emit (strip text) ws)).
Proof.
  intros Hd bound.
  assert (Hreach : len (strip text) <= 0 + Z.of_nat bound * (max_chars - overlap)).
  { subst bound. rewrite Z2Nat.id
      by (apply ceil_div_nonneg; [apply len_nonneg | lia]).
    pose proof (ceil_div_reaches (len text) (max_chars - overlap) ltac:(lia)).
    pose proof (strip_len text). lia. }
  destruct (windows_terminate (len (strip text)) max_chars overlap bound Hd 0
              ltac:(lia) Hreach) as (ws & Hws & Hlen).
  exists ws. repeat split; [exact Hws | exact Hlen |].
  intros fuel Hfuel. rewrite split_into_chunks_windows.
  rewrite (windows_more_fuel _ _ _ _ _ Hfuel _ _ Hws). reflexivity.
Qed.

(** [split_into_chunks_terminates] at a concrete input. *)
Lemma split_into_chunks_terminates_witness :
  1 < 3 /\
  exists ws,
    windows 4 (len (strip (str "ab c d e"))) 3 1 0 = Some ws /\
    (length ws <= 4)%nat /\
    forall fuel, (4 <= fuel)%nat ->
      split_into_chunks fuel (str "ab c d e") 3 1
      = Some (Returned (emit (strip (str "ab c d e")) ws)).
Proof.
  split; [lia|].
  exact (split_into_chunks_terminates (str "ab c d e") 3 1 ltac:(lia)).
Defined.

(** *** Overlap of consecutive chunks *)

(** C4, counterexample: the chunks are trimmed one by one, so a window that
    begins or ends at white space loses the shared characters. Of
    ["ab c d e"] with [max_chars = 3], [overlap = 1] the first two chunks are
    ["ab"] and ["c"], which share no character. *)
Lemma trimmed_chunks_do_not_overlap :
  3 < len (str "ab c d e") /\
  split_into_chunks 4 (str "ab c d e") 3 1
  = Some (Returned [str "ab"; str "c"; str "d"; str "e"]) /\
  ~ overlap_by 1 (str "ab") (str "c").
Proof.
  split; [reflexivity|]. split; [vm_compute; reflexivity|].
  intros (_ & _ & H). vm_compute in H. discriminate.
Qed.

(** C4, as the code has it: for [0 <= overlap < max_chars] the chunks are
    the windows of the walk, each trimmed and the empty ones dropped. A
    window that is followed by another has exactly [max_chars] characters,
    and the next window starts exactly [overlap] characters before its end:
    the last [overlap] characters of the one are the first [overlap]
    characters of the other. When no window begins or ends with white space
    the same holds of every two consecutive chunks. *)
Theorem consecutive_windows_overlap (text : pystr) (max_chars overlap : Z)
    (fuel : nat) (ws : list (Z * Z)) :
  0 <= overlap < max_chars ->
  windows fuel (len (strip text)) max_chars overlap 0 = Some ws ->
  split_into_chunks fuel text max_chars overlap
  = Some (Returned (emit (strip text) ws)) /\
  (forall i w1 w2,
      nth_error ws i = Some w1 -> nth_error ws (S i) = Some w2 ->
      snd w1 - fst w1 = max_chars /\ fst w2 = snd w1 - overlap /\
      fst w1 <= fst w2 /\ snd w1 < snd w2 /\
      overlap_by overlap (window_text (strip text) w1)
                         (window_text (strip text) w2)) /\
  (Forall (fun w => strip (window_text (strip text) w)
                    = window_text (strip text) w) ws ->
   forall i c1 c2,
     nth_error (emit (strip text) ws) i = Some c1 ->
     nth_error (emit (strip text) ws) (S i) = Some c2 ->
     overlap_by overlap c1 c2).
Proof.
  intros Hv Hws.
  assert (Hchunks : split_into_chunks fuel text max_chars overlap
                    = Some (Returned (emit (strip text) ws))).
  { rewrite split_into_chunks_windows, Hws. reflexivity. }
  split; [exact Hchunks|].
  destruct (Z.ltb_spec 0 (len (strip text))) as [Hpos|Hzero].
  - pose proof (windows_walk (len (strip text)) _ _ Hv fuel 0 ws
                    ltac:(lia) Hws) as Hw.
    assert (Hpairs : forall i w1 w2,
      nth_error ws i = Some w1 -> nth_error ws (S i) = Some w2 ->
      snd w1 - fst w1 = max_chars /\ fst w2 = snd w1 - overlap /\
      fst w1 <= fst w2 /\ snd w1 < snd w2 /\
      overlap_by overlap (window_text (strip text) w1)
                         (window_text (strip text) w2)).
    { intros i [s1 e1] [s2 e2] H1 H2.
      destruct (walk_pairs _ _ _ Hv _ _ Hw i s1 e1 s2 e2 H1 H2)
        as (A & B & C & D & E & F).
      simpl. do 4 (split; [lia|]).
      apply (window_overlap (len (strip text)) max_chars overlap Hv);
        try reflexivity; lia. }
    split; [exact Hpairs|].
    intros Ht i c1 c2 H1 H2.
    rewrite (emit_trimmed _ _ _ Hv _ _ _ eq_refl Hw Ht) in H1, H2.
    rewrite nth_error_map in H1, H2.
    destruct (nth_error ws i) as [w1|] eqn:E1; [|discriminate].
    destruct (nth_error ws (S i)) as [w2|] eqn:E2; [|discriminate].
    simpl in H1, H2. injection H1 as <-. injection H2 as <-.
    apply (Hpairs i w1 w2 E1 E2).
  - assert (ws = []) as ->.
    { destruct fuel; simpl in Hws;
        destruct (Z.ltb_spec 0 (len (strip text))); try lia;
        simpl in Hws; congruence. }
    split.
    + intros i w1 w2 H1. destruct i; discriminate.
    + intros _ i c1 c2 H1. destruct i; discriminate.
Qed.

(** [consecutive_windows_overlap] at a concrete input. *)
Lemma consecutive_windows_overlap_witness :
  split_into_chunks 3 (str "abcdefg") 3 1
  = Some (Returned (emit (strip (str "abcdefg")) [(0, 3); (2, 5); (4, 7)])) /\
  overlap_by 1 (str "abc") (str "cde").
Proof.
  destruct (consecutive_windows_overlap (str "abcdefg") 3 1 3
              [(0, 3); (2, 5); (4, 7)] ltac:(lia) eq_refl) as (H1 & H2 & H3).
  split; [exact H1|].
  exact (H3 ltac:(repeat constructor) 0%nat (str "abc") (str "cde") eq_refl eq_refl).
Defined.

(** *** Coverage *)

(** C5, counterexample: of ["a b"] with [max_chars = 2], [overlap = 1] the
    chunks are ["a"] and ["b"]; with the overlapping prefix removed they
    give back ["a"], not ["a b"]. *)
Lemma trimmed_chunks_lose_text :
  split_into_chunks 2 (str "a b") 2 1 = Some (Returned [str "a"; str "b"]) /\
  reconstruct 1 [str "a"; str "b"] = str "a" /\
  strip (str "a b") = str "a b".
Proof. vm_compute. repeat split. Qed.

(** C5, as the code has it: for [0 <= overlap < max_chars], concatenating
    the untrimmed windows of the walk, each after the first without its
    first [overlap] characters, gives back the trimmed text exactly. The
    chunks are these windows trimmed one by one, so the chunks themselves
    give back the trimmed text when no window begins or ends with white
    space. *)
Theorem windows_reconstruct (text : pystr) (max_chars overlap : Z)
    (fuel : nat) (ws : list (Z * Z)) :
  0 <= overlap < max_chars ->
  windows fuel (len (strip text)) max_chars overlap 0 = Some ws ->
  reconstruct overlap (map (window_text (strip text)) ws) = strip text /\
  (Forall (fun w => strip (window_text (strip text) w)
                    = window_text (strip text) w) ws ->
   exists chunks,
     split_into_chunks fuel text max_chars overlap = Some (Returned chunks) /\
     reconstruct overlap chunks = strip text).
Proof.
  intros Hv Hws.
  assert (Hrec : reconstruct overlap (map (window_text (strip text)) ws)
                 = strip text /\
                 (Forall (fun w => strip (window_text (strip text) w)
                    = window_text (strip text) w) ws ->
                  emit (strip text) ws = map (window_text (strip text)) ws)).
  { destruct (Z.ltb_spec 0 (len (strip text))) as [Hpos|Hzero].
    - pose proof (windows_walk (len (strip text)) _ _ Hv fuel 0 ws
                    ltac:(lia) Hws) as Hw.
      split.
      + exact (walk_reconstruct _ _ _ Hv _ _ _ eq_refl Hw eq_refl).
      + exact (emit_trimmed _ _ _ Hv _ _ _ eq_refl Hw).
    - assert (ws = []) as ->.
      { destruct fuel; simpl in Hws;
          destruct (Z.ltb_spec 0 (len (strip text))); try lia;
          simpl in Hws; congruence. }
      split; [|reflexivity]. simpl.
      destruct (strip text); [reflexivity|]. unfold len in Hzero. simpl in Hzero. lia. }
  destruct Hrec as [Hrec Hemit]. split; [exact Hrec|].
  intros Ht. exists (emit (strip text) ws). split.
  - rewrite split_into_chunks_windows, Hws. reflexivity.
  - rewrite (Hemit Ht). exact Hrec.
Qed.

(** [windows_reconstruct] at a concrete input. *)
Lemma windows_reconstruct_witness :
  reconstruct 1 (map (window_text (strip (str "abcdefg"))) [(0, 3); (2, 5); (4, 7)])
  = strip (str "abcdefg") /\
  exists chunks,
    split_into_chunks 3 (str "abcdefg") 3 1 = Some (Returned chunks) /\
    reconstruct 1 chunks = strip (str "abcdefg").
Proof.
  destruct (windows_reconstruct (str "abcdefg") 3 1 3
              [(0, 3); (2, 5); (4, 7)] ltac:(lia) eq_refl) as (H1 & H2).
  split; [exact H1|].
  exact (H2 ltac:(repeat constructor)).
Defined.

(** *** Size of the chunks, and surplus fuel *)

Lemma walk_sizes (n max_chars overlap start : Z) (ws : list (Z * Z)) :
  0 <= overlap < max_chars ->
  walk n max_chars overlap start ws ->
  Forall (fun w => 0 <= fst w /\ fst w <= snd w /\ snd w <= n
                   /\ snd w - fst w <= max_chars) ws.
Proof.
  intros Hv. induction 1 as [s Hs Hn | s ws Hs Hn Hw IH].
  - constructor; [simpl; lia | constructor].
  - constructor; [simpl; lia | exact IH].
Qed.

(** Every chunk of a valid configuration is non-empty, trimmed, and has at
    most [max_chars] characters. *)
Theorem chunk_length_ceiling (text : pystr) (max_chars overlap : Z)
    (fuel : nat) (chunks : list pystr) :
  0 <= overlap < max_chars ->
  split_into_chunks fuel text max_chars overlap = Some (Returned chunks) ->
  Forall (fun c => 0 < len c <= max_chars /\ strip c = c) chunks.
Proof.
  intros Hv H. rewrite split_into_chunks_windows in H.
  destruct (windows fuel (len (strip text)) max_chars overlap 0) as [ws|] eqn:Hws;
    [|discriminate].
  simpl in H. injection H as <-.
  destruct (Z.ltb_spec 0 (len (strip text))) as [Hpos|Hzero].
  - pose proof (windows_walk (len (strip text)) _ _ Hv fuel 0 ws
                  ltac:(lia) Hws) as Hw.
    apply (walk_sizes _ _ _ _ _ Hv) in Hw.
    apply Forall_forall. intros c Hc. unfold emit in Hc.
    apply filter_In in Hc. destruct Hc as [Hc Hne].
    apply in_map_iff in Hc. destruct Hc as (w & <- & Hin).
    rewrite Forall_forall in Hw. specialize (Hw w Hin).
    split; [|apply strip_idem]. split; [apply truthy_len; exact Hne|].
    pose proof (strip_len (window_text (strip text) w)) as Hl.
    unfold window_text in *. rewrite slice_len in Hl; lia.
  - assert (ws = []) as ->; [|constructor].
    destruct fuel; simpl in Hws;
      destruct (Z.ltb_spec 0 (len (strip text))); try lia;
      simpl in Hws; congruence.
Qed.

(** [chunk_length_ceiling] at a concrete input. *)
Lemma chunk_length_ceiling_witness :
  Forall (fun c => 0 < len c <= 3 /\ strip c = c)
         [str "ab"; str "c"; str "d"; str "e"].
Proof.
  exact (chunk_length_ceiling (str "ab c d e") 3 1 4 _ ltac:(lia) eq_refl).
Defined.

(** A result does not depend on the fuel that is left over. *)
Theorem split_into_chunks_more_fuel (text : pystr) (max_chars overlap : Z)
    (fuel fuel' : nat) (r : result (list pystr)) :
  (fuel <= fuel')%nat ->
  split_into_chunks fuel text max_chars overlap = Some r ->
  split_into_chunks fuel' text max_chars overlap = Some r.
Proof.
  intros Hle. rewrite !split_into_chunks_windows.
  destruct (windows fuel (len (strip text)) max_chars overlap 0) as [ws|] eqn:Hws;
    [|discriminate].
  rewrite (windows_more_fuel _ _ _ _ _ Hle _ _ Hws). trivial.
Qed.

(** [split_into_chunks_more_fuel] at a concrete input. *)
Lemma split_into_chunks_more_fuel_witness :
  split_into_chunks 9 (str "ab c d e") 3 1
  = Some (Returned [str "ab"; str "c"; str "d"; str "e"]).
Proof.
  exact (split_into_chunks_more_fuel (str "ab c d e") 3 1 4 9 _
           ltac:(lia) eq_refl).
Defined.

(** *** What the chunks keep of the text *)

Lemma lstrip_split (s : pystr) : exists pre, s = pre ++ lstrip s /\ blank pre.
Proof.
  induction s as [|c s (pre & E & B)]; simpl.
  - exists []. split; [reflexivity | constructor].
  - destruct (isspace c) eqn:Ec.
    + exists (c :: pre). split; [simpl; congruence | constructor; assumption].
    + exists []. split; [reflexivity | constructor].
Qed.

Lemma strip_split (s : pystr) :
  exists pre post, s = pre ++ strip s ++ post /\ blank pre /\ blank post.
Proof.
  destruct (lstrip_split s) as (pre & E1 & B1).
  destruct (lstrip_split (rev (lstrip s))) as (p2 & E2 & B2).
  exists pre, (rev p2). repeat split; [|exact B1|apply Forall_rev; exact B2].
  unfold strip, rstrip. rewrite <- rev_app_distr, <- E2, rev_involutive.
  exact E1.
Qed.

Lemma slice_split {A : Type} (s : list A) (i j : Z) :
  exists pre post, s = pre ++ slice s i j ++ post.
Proof.
  unfold slice.
  exists (firstn (Z.to_nat (clamp_index (len s) i)) s).
  eexists. rewrite firstn_skipn. rewrite firstn_skipn. reflexivity.
Qed.


Lemma windows_of_empty (fuel : nat) (n max_chars overlap : Z) (ws : list (Z * Z)) :
  n <= 0 -> windows fuel n max_chars overlap 0 = Some ws -> ws = [].
Proof.
  intros Hn H. destruct fuel; simpl in H;
    destruct (Z.ltb_spec 0 n); try lia; simpl in H; congruence.
Qed.



(** Whatever the parameters, every chunk of a call that returns is a
    contiguous piece of the trimmed text. *)
Theorem chunks_are_pieces_of_the_text (text : pystr) (max_chars overlap : Z)
    (fuel : nat) (chunks : list pystr) :
  split_into_chunks fuel text max_chars overlap = Some (Returned chunks) ->
  Forall (fun c => exists pre post, strip text = pre ++ c ++ post) chunks.
Proof.
  intros H. rewrite split_into_chunks_windows in H.
  destruct (windows fuel (len (strip text)) max_chars overlap 0) as [ws|];
    [|discriminate].
  simpl in H. injection H as <-.
  apply Forall_forall. intros c Hc. unfold emit in Hc.
  apply filter_In in Hc. destruct Hc as [Hc _].
  apply in_map_iff in Hc. destruct Hc as ([s e] & <- & _).
  unfold window_text. simpl.
  destruct (slice_split (strip text) s e) as (a & b & E).
  destruct (strip_split (slice (strip text) s e)) as (pre & post & E' & _).
  exists (a ++ pre), (post ++ b).
  rewrite E at 1. rewrite E' at 1. rewrite <- !app_assoc. reflexivity.
Qed.

(** [chunks_are_pieces_of_the_text] at a concrete input. *)
Lemma chunks_are_pieces_of_the_text_witness :
  Forall (fun c => exists pre post, strip (str " ab c d e ") = pre ++ c ++ post)
         [str "ab"; str "c"; str "d"; str "e"].
Proof.
  exact (chunks_are_pieces_of_the_text (str " ab c d e ") 3 1 4 _ eq_refl).
Defined.

(** *** The loop that does not end *)

Lemma windows_stuck_at_start (n max_chars overlap : Z) (fuel : nat) :
  max_chars <= overlap -> max_chars < n -> 0 < n ->
  windows fuel n max_chars overlap 0 = None.
Proof.
  intros Ho Hm Hn. induction fuel as [|fuel IH]; simpl;
    destruct (Z.ltb_spec 0 n); try lia; simpl; [reflexivity|].
  rewrite Z.min_l by lia.
  destruct (Z.eqb_spec max_chars n); [lia|].
  rewrite Z.max_l by lia. rewrite IH. reflexivity.
Qed.

(** With [overlap >= max_chars] a call whose trimmed text is longer than
    [max_chars] never returns: every window starts at position 0 again. *)
Theorem overlap_too_large_never_returns (text : pystr) (max_chars overlap : Z) :
  max_chars <= overlap ->
  max_chars < len (strip text) ->
  0 < len (strip text) ->
  loops_forever text max_chars overlap.
Proof.
  intros Ho Hm Hn fuel. rewrite split_into_chunks_windows.
  rewrite windows_stuck_at_start by assumption. reflexivity.
Qed.

(** [overlap_too_large_never_returns] at a concrete input. *)
Lemma overlap_too_large_never_returns_witness :
  loops_forever (str "abcdef") 4 7.
Proof.
  apply (overlap_too_large_never_returns (str "abcdef") 4 7);
    [lia | reflexivity | reflexivity].
Defined.

End ChunkerFacts.

(** ** Score fusion and ranking *)

Module FusionFacts.

Import Fusion.

Local Open Scope Q_scope.

Example argsort_example :
  np_argsort [3#1; 1#1; 2#1; 1#1] = [1; 3; 2; 0]%nat.
Proof. reflexivity. Qed.

Example search_example :
  option_map (map (fun h => (rank h, text h)))
    (hybrid_chunk_search (fun _ _ => [0; 2; 1]) (fun _ _ => [1; 1; 0])
       [str "a"; str "b"; str "c"] (str "q") 2 (6 # 10))
  = Some [(1%Z, str "b"); (2%Z, str "a")].
Proof. vm_compute. reflexivity. Qed.

(** *** Minimum and maximum *)

Lemma qmin_spec (a b : Q) : (qmin a b = a \/ qmin a b = b) /\ qmin a b <= a /\ qmin a b <= b.
Proof.
  unfold qmin. destruct (Qle_bool a b) eqn:E.
  - apply Qle_bool_iff in E. repeat split; auto; lra.
  - assert (~ a <= b) by (intros H; apply Qle_bool_iff in H; congruence).
    repeat split; auto; lra.
Qed.

Lemma qmax_spec (a b : Q) : (qmax a b = a \/ qmax a b = b) /\ a <= qmax a b /\ b <= qmax a b.
Proof.
  unfold qmax. destruct (Qle_bool a b) eqn:E.
  - apply Qle_bool_iff in E. repeat split; auto; lra.
  - assert (~ a <= b) by (intros H; apply Qle_bool_iff in H; congruence).
    repeat split; auto; lra.
Qed.

Lemma fold_qmin (rest : list Q) :
  forall a, In (fold_left qmin rest a) (a :: rest)
            /\ Forall (fun x => fold_left qmin rest a <= x) (a :: rest).
Proof.
  induction rest as [|b rest IH]; intros a; simpl.
  - split; [left; reflexivity | constructor; [lra | constructor]].
  - destruct (IH (qmin a b)) as [Hin Hall].
    destruct (qmin_spec a b) as (Hsel & Ha & Hb).
    inversion Hall as [|? ? Hm Hrest]; subst. split.
    + destruct Hin as [Hin|Hin]; [|right; right; exact Hin].
      rewrite <- Hin. destruct Hsel as [-> | ->]; [left | right; left]; reflexivity.
    + constructor; [lra|]. constructor; [lra | exact Hrest].
Qed.

Lemma fold_qmax (rest : list Q) :
  forall a, In (fold_left qmax rest a) (a :: rest)
            /\ Forall (fun x => x <= fold_left qmax rest a) (a :: rest).
Proof.
  induction rest as [|b rest IH]; intros a; simpl.
  - split; [left; reflexivity | constructor; [lra | constructor]].
  - destruct (IH (qmax a b)) as [Hin Hall].
    destruct (qmax_spec a b) as (Hsel & Ha & Hb).
    inversion Hall as [|? ? Hm Hrest]; subst. split.
    + destruct Hin as [Hin|Hin]; [|right; right; exact Hin].
      rewrite <- Hin. destruct Hsel as [-> | ->]; [left | right; left]; reflexivity.
    + constructor; [lra|]. constructor; [lra | exact Hrest].
Qed.

Lemma np_min_max (scores : list Q) :
  scores <> [] ->
  exists lo hi,
    np_min scores = Some lo /\ np_max scores = Some hi /\
    In lo scores /\ In hi scores /\
    Forall (fun s => lo <= s <= hi) scores.
Proof.
  destruct scores as [|s rest]; [congruence|]. intros _.
  destruct (fold_qmin rest s) as [Hin1 Hall1].
  destruct (fold_qmax rest s) as [Hin2 Hall2].
  exists (fold_left qmin rest s), (fold_left qmax rest s).
  repeat split; try assumption.
  rewrite Forall_forall in *. intros x Hx. split; auto.
Qed.

(** *** Normalization *)

Lemma all_some_map {A B : Type} (f : A -> option B) (g : A -> B) (l : list A) :
  (forall x, In x l -> f x = Some (g x)) ->
  all_some (map f l) = Some (map g l).
Proof.
  induction l as [|a l IH]; intros H; simpl; [reflexivity|].
  rewrite (H a (or_introl eq_refl)), IH; [reflexivity|].
  intros x Hx. apply H. right. exact Hx.
Qed.

Lemma np_divide_defined (a b : Q) : ~ b == 0 -> np_divide a b = Some (a / b).
Proof.
  intros Hb. unfold np_divide. destruct (Qeq_bool b 0) eqn:E; [|reflexivity].
  apply Qeq_bool_iff in E. contradiction.
Qed.

Lemma normalize_degenerate (scores : list Q) (lo hi : Q) :
  np_min scores = Some lo -> np_max scores = Some hi ->
  hi - lo < eps ->
  normalize scores = Some (map (fun _ => 1) scores).
Proof.
  intros Hlo Hhi Hd. unfold normalize. rewrite Hlo, Hhi.
  destruct (Qlt_le_dec (hi - lo) eps); [reflexivity | lra].
Qed.

Lemma normalize_regular (scores : list Q) (lo hi : Q) :
  np_min scores = Some lo -> np_max scores = Some hi ->
  eps <= hi - lo ->
  normalize scores = Some (map (fun s => (s - lo) / (hi - lo)) scores).
Proof.
  intros Hlo Hhi Hd. unfold normalize. rewrite Hlo, Hhi.
  destruct (Qlt_le_dec (hi - lo) eps); [lra|].
  apply all_some_map. intros x _. apply np_divide_defined.
  unfold eps in *. intros H0. lra.
Qed.

Lemma ratio_bounds (s lo hi : Q) :
  lo < hi -> lo <= s <= hi -> 0 <= (s - lo) / (hi - lo) <= 1.
Proof.
  intros Hd Hs. split.
  - apply Qle_shift_div_l; lra.
  - apply Qle_shift_div_r; lra.
Qed.

Lemma ratio_at_min (s lo hi : Q) : s == lo -> (s - lo) / (hi - lo) == 0.
Proof.
  intros H. rewrite H. unfold Qdiv.
  setoid_replace (lo - lo) with 0 by ring. ring.
Qed.

Lemma ratio_at_max (s lo hi : Q) : lo < hi -> s == hi -> (s - lo) / (hi - lo) == 1.
Proof.
  intros Hd H. rewrite H. field. lra.
Qed.

Lemma normalize_unit_interval (scores norm : list Q) :
  normalize scores = Some norm ->
  length norm = length scores /\ Forall (fun v => 0 <= v <= 1) norm.
Proof.
  intros H. destruct scores as [|s rest] eqn:Es; [discriminate|].
  rewrite <- Es in *.
  destruct (np_min_max scores) as (lo & hi & Hlo & Hhi & _ & _ & Hall);
    [congruence|].
  destruct (Qlt_le_dec (hi - lo) eps) as [Hd|Hd].
  - rewrite (normalize_degenerate _ _ _ Hlo Hhi Hd) in H. injection H as <-.
    split; [apply length_map|]. apply Forall_map.
    apply Forall_forall. intros x _. lra.
  - rewrite (normalize_regular _ _ _ Hlo Hhi Hd) in H. injection H as <-.
    split; [apply length_map|]. apply Forall_map.
    revert Hall. apply Forall_impl. intros x Hx.
    apply ratio_bounds; [unfold eps in Hd; lra | exact Hx].
Qed.

Lemma normalize_total (scores : list Q) :
  scores <> [] -> exists norm, normalize scores = Some norm.
Proof.
  intros Hne.
  destruct (np_min_max scores Hne) as (lo & hi & Hlo & Hhi & _).
  destruct (Qlt_le_dec (hi - lo) eps) as [Hd|Hd].
  - eexists. exact (normalize_degenerate _ _ _ Hlo Hhi Hd).
  - eexists. exact (normalize_regular _ _ _ Hlo Hhi Hd).
Qed.

(** C6: for a non-empty score vector the normalization divides by no zero
    (it returns a vector, one value per score). When the maximum and the
    minimum differ by less than 1e-9 every value is 1. Otherwise every value
    lies in [0, 1], a score equal to the minimum maps to 0 and a score equal
    to the maximum maps to 1; minimum and maximum are scores of the
    vector. *)
Theorem normalize_safe_and_bounded (scores : list Q) :
  scores <> [] ->
  exists lo hi norm,
    np_min scores = Some lo /\ np_max scores = Some hi /\
    In lo scores /\ In hi scores /\
    normalize scores = Some norm /\ length norm = length scores /\
    (hi - lo < eps -> Forall (fun v => v = 1) norm) /\
    (eps <= hi - lo ->
     Forall (fun v => 0 <= v <= 1) norm /\
     forall i s v,
       nth_error scores i = Some s -> nth_error norm i = Some v ->
       (s == lo -> v == 0) /\ (s == hi -> v == 1)).
Proof.
  intros Hne.
  destruct (np_min_max scores Hne) as (lo & hi & Hlo & Hhi & Hinlo & Hinhi & Hall).
  destruct (normalize_total scores Hne) as (norm & Hnorm).
  exists lo, hi, norm.
  destruct (normalize_unit_interval _ _ Hnorm) as [Hlen Hunit].
  repeat (split; [assumption|]). split.
  - intros Hd. rewrite (normalize_degenerate _ _ _ Hlo Hhi Hd) in Hnorm.
    injection Hnorm as <-. apply Forall_map. apply Forall_forall. reflexivity.
  - intros Hd. split; [exact Hunit|].
    rewrite (normalize_regular _ _ _ Hlo Hhi Hd) in Hnorm. injection Hnorm as <-.
    intros i s v Hs Hv. rewrite nth_error_map, Hs in Hv. simpl in Hv.
    injection Hv as <-. split.
    + apply ratio_at_min.
    + apply ratio_at_max. unfold eps in Hd. lra.
Qed.

(** [normalize_safe_and_bounded] at a concrete input. *)
Lemma normalize_safe_and_bounded_witness :
  exists lo hi norm,
    np_min [2; 5; 3] = Some lo /\ np_max [2; 5; 3] = Some hi /\
    In lo [2; 5; 3] /\ In hi [2; 5; 3] /\
    normalize [2; 5; 3] = Some norm /\ length norm = length [2; 5; 3] /\
    (hi - lo < eps -> Forall (fun v => v = 1) norm) /\
    (eps <= hi - lo ->
     Forall (fun v => 0 <= v <= 1) norm /\
     forall i s v,
       nth_error [2; 5; 3] i = Some s -> nth_error norm i = Some v ->
       (s == lo -> v == 0) /\ (s == hi -> v == 1)).
Proof.
  exact (normalize_safe_and_bounded [2; 5; 3] ltac:(discriminate)).
Defined.

(** *** Fusion *)




Lemma fuse_unit_interval (alpha : Q) (sem_norm bm25_norm : list Q) :
  0 <= alpha <= 1 ->
  Forall (fun v => 0 <= v <= 1) sem_norm ->
  Forall (fun v => 0 <= v <= 1) bm25_norm ->
  Forall (fun v => 0 <= v <= 1) (fuse alpha sem_norm bm25_norm).
Proof.
  intros Ha Hs. revert bm25_norm.
  induction Hs as [|s sem Hs1 Hs IH]; intros bm Hb; [constructor|].
  destruct Hb as [|b bm Hb1 Hb]; [constructor|].
  unfold fuse. simpl. constructor.
  - unfold fuse_score. split; nra.
  - apply IH. exact Hb.
Qed.

Lemma key_unit_interval (v : list Q) (i : nat) :
  Forall (fun x => 0 <= x <= 1) v -> 0 <= key v i <= 1.
Proof.
  intros H. unfold key. revert i.
  induction H as [|x l Hx H IH]; intros [|i]; simpl; try lra; auto.
Qed.

Lemma results_scores (final : list Q) (chunk_texts : list pystr) (idx : list nat) :
  Forall (fun x => 0 <= x <= 1) final ->
  Forall (fun h => 0 <= score h <= 1) (results final chunk_texts idx).
Proof.
  intros H. unfold results. apply Forall_map. apply Forall_forall.
  intros p _. simpl. apply key_unit_interval. exact H.
Qed.

(** C10: for [alpha] in [0, 1] and scorers that return one score per chunk,
    the search returns a result list, and every fused score in it lies in
    the closed interval [0, 1]. *)
Theorem hybrid_scores_in_unit_interval
    (bm25_scores semantic_scores : list pystr -> pystr -> list Q)
    (chunks : list pystr) (query : pystr) (top_k : Z) (alpha : Q) :
  0 <= alpha <= 1 ->
  length (bm25_scores chunks (strip query)) = length chunks ->
  length (semantic_scores chunks (strip query)) = length chunks ->
  exists hits,
    hybrid_chunk_search bm25_scores semantic_scores chunks query top_k alpha
    = Some hits /\
    Forall (fun h => 0 <= score h <= 1) hits.
Proof.
  intros Ha Hb Hs. unfold hybrid_chunk_search.
  destruct (truthy (strip query)); simpl; [|exists []; split; [reflexivity|constructor]].
  destruct chunks as [|c cs] eqn:Ec; simpl;
    [exists []; split; [reflexivity|constructor]|].
  rewrite <- Ec in *. unfold final_scores.
  destruct (normalize_total (bm25_scores chunks (strip query))) as (bn & Hbn).
  { intros E. rewrite E, Ec in Hb. discriminate. }
  destruct (normalize_total (semantic_scores chunks (strip query))) as (sn & Hsn).
  { intros E. rewrite E, Ec in Hs. discriminate. }
  rewrite Hbn, Hsn. eexists. split; [reflexivity|].
  apply results_scores. apply fuse_unit_interval; [exact Ha | |].
  - apply (normalize_unit_interval _ _ Hsn).
  - apply (normalize_unit_interval _ _ Hbn).
Qed.

(** [hybrid_scores_in_unit_interval] at a concrete input. *)
Lemma hybrid_scores_in_unit_interval_witness :
  exists hits,
    hybrid_chunk_search (fun _ _ => [0; 2; 1]) (fun _ _ => [1; 1; 0])
      [str "a"; str "b"; str "c"] (str "q") 2 (6 # 10) = Some hits /\
    Forall (fun h => 0 <= score h <= 1) hits.
Proof.
  apply (hybrid_scores_in_unit_interval (fun _ _ => [0; 2; 1])
           (fun _ _ => [1; 1; 0]) [str "a"; str "b"; str "c"] (str "q") 2 (6 # 10)).
  - split; discriminate.
  - reflexivity.
  - reflexivity.
Defined.

(** *** Ranking *)

Lemma insert_index_In (v : list Q) (i x : nat) (l : list nat) :
  In x (insert_index v i l) <-> x = i \/ In x l.
Proof.
  induction l as [|j l IH]; simpl.
  - intuition.
  - destruct (Qle_bool (key v i) (key v j)); simpl; [intuition|].
    rewrite IH. intuition.
Qed.

Lemma insert_index_sorted (v : list Q) (i : nat) (l : list nat) :
  StronglySorted (asc v) l ->
  Forall (fun j => (i < j)%nat) l ->
  StronglySorted (asc v) (insert_index v i l).
Proof.
  induction 1 as [|j l Hs IH Hj]; intros Hi; simpl.
  - constructor; constructor.
  - inversion Hi as [|? ? Hij Hil]; subst.
    destruct (Qle_bool (key v i) (key v j)) eqn:E.
    + apply Qle_bool_iff in E. constructor; [constructor; assumption|].
      assert (Hle : Forall (fun z => key v i <= key v z) (j :: l)).
      { constructor; [exact E|]. revert Hj. apply Forall_impl.
        intros z [Hz | [Hz _]]; lra. }
      rewrite Forall_forall in *. intros z Hz.
      specialize (Hle z Hz). specialize (Hi z Hz). unfold asc.
      destruct (Qle_lt_or_eq _ _ Hle); [left | right]; auto.
    + assert (Hlt : key v j < key v i).
      { apply Qnot_le_lt. intros H. apply Qle_bool_iff in H. congruence. }
      constructor; [apply IH; exact Hil|].
      rewrite Forall_forall in *. intros z Hz.
      apply insert_index_In in Hz. destruct Hz as [-> | Hz].
      * left. exact Hlt.
      * apply Hj. exact Hz.
Qed.

Lemma argsort_from_sorted (v : list Q) (n : nat) :
  forall k,
    StronglySorted (asc v) (fold_right (insert_index v) [] (seq k n))
    /\ Forall (fun j => (k <= j)%nat) (fold_right (insert_index v) [] (seq k n)).
Proof.
  induction n as [|n IH]; intros k; simpl.
  - split; constructor.
  - destruct (IH (S k)) as [Hs Hk]. split.
    + apply insert_index_sorted; [exact Hs|].
      revert Hk. apply Forall_impl. intros j Hj. lia.
    + rewrite Forall_forall in *. intros j Hj.
      apply insert_index_In in Hj. destruct Hj as [-> | Hj]; [lia|].
      specialize (Hk j Hj). lia.
Qed.

Lemma np_argsort_sorted (v : list Q) : StronglySorted (asc v) (np_argsort v).
Proof. apply argsort_from_sorted. Qed.

Lemma sorted_app {A : Type} (R : A -> A -> Prop) (l1 l2 : list A) :
  StronglySorted R l1 -> StronglySorted R l2 ->
  (forall x y, In x l1 -> In y l2 -> R x y) ->
  StronglySorted R (l1 ++ l2).
Proof.
  induction 1 as [|a l1 Hs IH Ha]; intros H2 Hx; simpl; [exact H2|].
  constructor.
  - apply IH; [exact H2|]. intros x y Hx1 Hy. apply Hx; [right|]; assumption.
  - apply Forall_app. split; [exact Ha|].
    apply Forall_forall. intros y Hy. apply Hx; [left; reflexivity | exact Hy].
Qed.

Lemma sorted_rev {A : Type} (R : A -> A -> Prop) (l : list A) :
  StronglySorted R l -> StronglySorted (fun a b => R b a) (rev l).
Proof.
  induction 1 as [|a l Hs IH Ha]; simpl; [constructor|].
  apply sorted_app; [exact IH | repeat constructor |].
  intros x y Hx [<- | []]. rewrite <- in_rev in Hx.
  rewrite Forall_forall in Ha. apply Ha. exact Hx.
Qed.

Lemma In_firstn {A : Type} (x : A) (n : nat) (l : list A) :
  In x (firstn n l) -> In x l.
Proof.
  revert l. induction n as [|n IH]; intros [|y l]; simpl; try tauto.
  intros [H | H]; [left; exact H | right; apply IH; exact H].
Qed.

Lemma sorted_firstn {A : Type} (R : A -> A -> Prop) (l : list A) (n : nat) :
  StronglySorted R l -> StronglySorted R (firstn n l).
Proof.
  intros H. revert n. induction H as [|a l Hs IH Ha]; intros [|n]; simpl;
    try constructor; [apply IH|].
  rewrite Forall_forall in *. intros x Hx. apply Ha.
  exact (In_firstn _ _ _ Hx).
Qed.


Lemma top_indices_sorted (final : list Q) (top_k : Z) :
  StronglySorted (fun a b => asc final b a) (top_indices final top_k).
Proof.
  unfold top_indices, slice_to. apply sorted_firstn, sorted_rev, np_argsort_sorted.
Qed.

Lemma results_nth (final : list Q) (chunk_texts : list pystr) (idx : list nat)
    (i a : nat) :
  nth_error idx i = Some a ->
  nth_error (results final chunk_texts idx) i
  = Some (mkHit (Z.of_nat (S i)) (key final a) (nth a chunk_texts [])).
Proof.
  intros Ha. unfold results. rewrite nth_error_map.
  assert (Hc : forall k, nth_error (combine (seq k (length idx)) idx) i
                         = Some ((k + i)%nat, a)).
  { revert i Ha. induction idx as [|x idx IH]; intros [|i] Ha k;
      simpl in *; try discriminate.
    - injection Ha as ->. rewrite Nat.add_0_r. reflexivity.
    - rewrite (IH i Ha (S k)). f_equal. f_equal. lia. }
  rewrite (Hc 1%nat). reflexivity.
Qed.




(** *** Size of the result *)

Lemma insert_index_length (v : list Q) (i : nat) (l : list nat) :
  length (insert_index v i l) = S (length l).
Proof.
  induction l as [|j l IH]; simpl; [reflexivity|].
  destruct (Qle_bool (key v i) (key v j)); simpl; [reflexivity|].
  rewrite IH. reflexivity.
Qed.

Lemma np_argsort_length (v : list Q) : length (np_argsort v) = length v.
Proof.
  unfold np_argsort. generalize 0%nat.
  induction (length v) as [|n IH]; intros k; simpl; [reflexivity|].
  rewrite insert_index_length, IH. reflexivity.
Qed.

Lemma fuse_length (alpha : Q) (sem_norm bm25_norm : list Q) :
  length (fuse alpha sem_norm bm25_norm)
  = Nat.min (length sem_norm) (length bm25_norm).
Proof. unfold fuse. rewrite length_map. apply length_combine. Qed.

(** The result has at most [top_k] entries and at most one per chunk, for a
    [top_k] that is not negative. *)
Theorem top_k_bound
    (bm25_scores semantic_scores : list pystr -> pystr -> list Q)
    (chunks : list pystr) (query : pystr) (top_k : Z) (alpha : Q)
    (hits : list hit) :
  (0 <= top_k)%Z ->
  length (bm25_scores chunks (strip query)) = length chunks ->
  length (semantic_scores chunks (strip query)) = length chunks ->
  hybrid_chunk_search bm25_scores semantic_scores chunks query top_k alpha
  = Some hits ->
  (len hits <= Z.min top_k (len chunks))%Z.
Proof.
  intros Hk Hb Hs H. unfold hybrid_chunk_search in H.
  assert (Hnil : hits = [] -> (len hits <= Z.min top_k (len chunks))%Z).
  { intros ->. unfold len. simpl. lia. }
  destruct (truthy (strip query)); simpl in H; [|apply Hnil; congruence].
  destruct (truthy chunks); simpl in H; [|apply Hnil; congruence].
  unfold final_scores in H.
  destruct (normalize (bm25_scores chunks (strip query))) as [bn|] eqn:Ebn;
    [|discriminate].
  destruct (normalize (semantic_scores chunks (strip query))) as [sn|] eqn:Esn;
    [|discriminate].
  injection H as <-.
  destruct (normalize_unit_interval _ _ Ebn) as [Lb _].
  destruct (normalize_unit_interval _ _ Esn) as [Ls _].
  unfold len, results, top_indices, slice_to, clamp_index, len.
  rewrite length_map, length_combine, length_seq, Nat.min_id.
  rewrite length_firstn, length_rev, np_argsort_length, fuse_length.
  destruct (Z.ltb_spec top_k 0); lia.
Qed.

(** [top_k_bound] at a concrete input. *)
Lemma top_k_bound_witness :
  (len [mkHit 1 (fuse_score (6 # 10) 1 1) (str "second")]
   <= Z.min 1 (len [str "first"; str "second"]))%Z.
Proof.
  exact (top_k_bound (fun _ _ => [1; 1]) (fun _ _ => [1; 1])
           [str "first"; str "second"] (str "q") 1 (6 # 10) _
           ltac:(lia) eq_refl eq_refl eq_refl).
Defined.

(** *** The indices the search returns *)

Lemma fold_insert_In (v : list Q) (l : list nat) (j : nat) :
  In j (fold_right (insert_index v) [] l) <-> In j l.
Proof.
  induction l as [|i l IH]; simpl; [tauto|].
  rewrite insert_index_In, IH. intuition.
Qed.

Lemma np_argsort_In (v : list Q) (j : nat) :
  In j (np_argsort v) <-> (j < length v)%nat.
Proof.
  unfold np_argsort. rewrite fold_insert_In, in_seq. lia.
Qed.

Lemma asc_irrefl (v : list Q) (i : nat) : ~ asc v i i.
Proof. unfold asc. intros [H | [_ H]]; [lra | lia]. Qed.

Lemma sorted_NoDup {A : Type} (R : A -> A -> Prop) (l : list A) :
  (forall x, ~ R x x) -> StronglySorted R l -> NoDup l.
Proof.
  intros Hirr. induction 1 as [|a l Hs IH Ha]; constructor; [|exact IH].
  intros Hin. rewrite Forall_forall in Ha. exact (Hirr a (Ha a Hin)).
Qed.

Lemma top_indices_NoDup (final : list Q) (top_k : Z) :
  NoDup (top_indices final top_k).
Proof.
  apply (sorted_NoDup (fun a b => asc final b a)).
  - intros x. apply asc_irrefl.
  - apply top_indices_sorted.
Qed.

Lemma top_indices_in_range (final : list Q) (top_k : Z) (a : nat) :
  In a (top_indices final top_k) -> (a < length final)%nat.
Proof.
  unfold top_indices, slice_to. intros H. apply In_firstn in H.
  apply in_rev in H. apply np_argsort_In. exact H.
Qed.

Lemma top_index_maximal (final : list Q) (top_k : Z) (a : nat) (rest : list nat) :
  top_indices final top_k = a :: rest ->
  forall j, (j < length final)%nat -> key final j <= key final a.
Proof.
  unfold top_indices, slice_to. intros H j Hj.
  pose proof (sorted_rev _ _ (np_argsort_sorted final)) as Hs.
  assert (Hin : In j (rev (np_argsort final))).
  { rewrite <- in_rev. apply np_argsort_In. exact Hj. }
  destruct (rev (np_argsort final)) as [|x l]; [destruct Hin|].
  destruct (Z.to_nat (clamp_index (len (x :: l)) top_k)); [discriminate|].
  simpl in H. injection H as -> _.
  inversion Hs as [|? ? _ Hall]; subst.
  destruct Hin as [<- | Hin]; [lra|].
  rewrite Forall_forall in Hall. specialize (Hall j Hin).
  unfold asc in Hall. destruct Hall as [H|[H _]]; lra.
Qed.

(** What a search that returns results has computed. *)
Lemma search_results_shape
    (bm25_scores semantic_scores : list pystr -> pystr -> list Q)
    (chunks : list pystr) (query : pystr) (top_k : Z) (alpha : Q)
    (hits : list hit) :
  hybrid_chunk_search bm25_scores semantic_scores chunks query top_k alpha
  = Some hits ->
  hits = [] \/
  exists bn sn,
    normalize (bm25_scores chunks (strip query)) = Some bn /\
    normalize (semantic_scores chunks (strip query)) = Some sn /\
    hits = results (fuse alpha sn bn) chunks
             (top_indices (fuse alpha sn bn) top_k).
Proof.
  unfold hybrid_chunk_search, final_scores. intros H.
  destruct (truthy (strip query)); simpl in H; [|left; congruence].
  destruct (truthy chunks); simpl in H; [|left; congruence].
  destruct (normalize (bm25_scores chunks (strip query))) as [bn|];
    [|discriminate].
  destruct (normalize (semantic_scores chunks (strip query))) as [sn|];
    [|discriminate].
  right. exists bn, sn. repeat split. congruence.
Qed.

Lemma results_cons (final : list Q) (chunks : list pystr) (idx : list nat)
    (h : hit) (rest : list hit) :
  results final chunks idx = h :: rest ->
  exists a idx', idx = a :: idx'
                 /\ h = mkHit 1 (key final a) (nth a chunks []).
Proof.
  destruct idx as [|a idx']; [discriminate|].
  intros H. exists a, idx'. split; [reflexivity|].
  pose proof (results_nth final chunks (a :: idx') 0 a eq_refl) as Hn.
  rewrite H in Hn. simpl in Hn. congruence.
Qed.

Lemma results_texts (final : list Q) (chunks : list pystr) (idx : list nat) :
  map text (results final chunks idx) = map (fun a => nth a chunks []) idx
  /\ map rank (results final chunks idx)
     = map Z.of_nat (seq 1 (length idx)).
Proof.
  unfold results. rewrite !map_map. simpl.
  generalize 1%nat. induction idx as [|a idx IH]; intros k; simpl.
  - split; reflexivity.
  - destruct (IH (S k)) as [E1 E2]. rewrite E1, E2. split; reflexivity.
Qed.

(** The results are distinct chunks of the document: no chunk is returned
    twice, every text is that of a chunk, and the ranks count from 1
    without a gap. *)
Theorem hits_are_distinct_chunks
    (bm25_scores semantic_scores : list pystr -> pystr -> list Q)
    (chunks : list pystr) (query : pystr) (top_k : Z) (alpha : Q)
    (hits : list hit) :
  length (bm25_scores chunks (strip query)) = length chunks ->
  length (semantic_scores chunks (strip query)) = length chunks ->
  hybrid_chunk_search bm25_scores semantic_scores chunks query top_k alpha
  = Some hits ->
  exists idx,
    NoDup idx /\
    Forall (fun a => (a < length chunks)%nat) idx /\
    map text hits = map (fun a => nth a chunks []) idx /\
    map rank hits = map Z.of_nat (seq 1 (length hits)).
Proof.
  intros Hb Hs H.
  destruct (search_results_shape _ _ _ _ _ _ _ H)
    as [-> | (bn & sn & Ebn & Esn & ->)].
  - exists []. repeat split; constructor.
  - destruct (normalize_unit_interval _ _ Ebn) as [Lb _].
    destruct (normalize_unit_interval _ _ Esn) as [Ls _].
    exists (top_indices (fuse alpha sn bn) top_k).
    destruct (results_texts (fuse alpha sn bn) chunks
                (top_indices (fuse alpha sn bn) top_k)) as [E1 E2].
    split; [apply top_indices_NoDup|]. split; [|split; [exact E1|]].
    + apply Forall_forall. intros a Ha.
      apply top_indices_in_range in Ha. rewrite fuse_length in Ha. lia.
    + rewrite E2. f_equal. f_equal. unfold results.
      rewrite length_map, length_combine, length_seq. lia.
Qed.

(** [hits_are_distinct_chunks] at a concrete input. *)
Lemma hits_are_distinct_chunks_witness :
  exists hits,
    hybrid_chunk_search (fun _ _ => [0; 2; 1]) (fun _ _ => [1; 1; 0])
      [str "a"; str "b"; str "c"] (str "q") 2 (6 # 10) = Some hits /\
    exists idx,
      NoDup idx /\
      Forall (fun a => (a < length [str "a"; str "b"; str "c"])%nat) idx /\
      map text hits = map (fun a => nth a [str "a"; str "b"; str "c"] []) idx /\
      map rank hits = map Z.of_nat (seq 1 (length hits)).
Proof.
  eexists. split; [reflexivity|].
  exact (hits_are_distinct_chunks (fun _ _ => [0; 2; 1]) (fun _ _ => [1; 1; 0])
           [str "a"; str "b"; str "c"] (str "q") 2 (6 # 10) _
           eq_refl eq_refl eq_refl).
Defined.

(** *** The score of the first result *)

Lemma fuse_key (alpha : Q) (sn bn : list Q) (i : nat) :
  (i < length sn)%nat -> (i < length bn)%nat ->
  key (fuse alpha sn bn) i = fuse_score alpha (key sn i) (key bn i).
Proof.
  unfold key, fuse. revert bn i.
  induction sn as [|s sn IH]; intros [|b bn] [|i] Hs Hb; simpl in *; try lia.
  - reflexivity.
  - apply IH; lia.
Qed.

Lemma key_of_nth_error (v : list Q) (i : nat) (x : Q) :
  nth_error v i = Some x -> key v i = x /\ (i < length v)%nat.
Proof.
  intros H. split.
  - unfold key. apply nth_error_nth. exact H.
  - apply nth_error_Some. congruence.
Qed.

(** A normalized vector has a 1: at the maximum, or everywhere. *)
Lemma normalize_attains_one (scores norm : list Q) :
  normalize scores = Some norm ->
  exists i, (i < length norm)%nat /\ key norm i == 1.
Proof.
  intros H. destruct scores as [|s rest] eqn:Es; [discriminate|].
  rewrite <- Es in *.
  destruct (np_min_max scores) as (lo & hi & Hlo & Hhi & _ & Hin & _);
    [congruence|].
  destruct (In_nth_error _ _ Hin) as (i & Hi).
  exists i.
  destruct (Qlt_le_dec (hi - lo) eps) as [Hd|Hd].
  - rewrite (normalize_degenerate _ _ _ Hlo Hhi Hd) in H. injection H as <-.
    assert (Hn : nth_error (map (fun _ : Q => 1) scores) i = Some 1).
    { rewrite nth_error_map, Hi. reflexivity. }
    destruct (key_of_nth_error _ _ _ Hn) as [-> Hl]. split; [exact Hl | reflexivity].
  - rewrite (normalize_regular _ _ _ Hlo Hhi Hd) in H. injection H as <-.
    assert (Hn : nth_error (map (fun s => (s - lo) / (hi - lo)) scores) i
                 = Some ((hi - lo) / (hi - lo))).
    { rewrite nth_error_map, Hi. reflexivity. }
    destruct (key_of_nth_error _ _ _ Hn) as [-> Hl]. split; [exact Hl|].
    apply ratio_at_max; [unfold eps in Hd; lra | reflexivity].
Qed.

(** The first result of a search, and two bounds on its score. *)
Lemma search_top_hit
    (bm25_scores semantic_scores : list pystr -> pystr -> list Q)
    (chunks : list pystr) (query : pystr) (top_k : Z) (alpha : Q)
    (h : hit) (rest : list hit) :
  hybrid_chunk_search bm25_scores semantic_scores chunks query top_k alpha
  = Some (h :: rest) ->
  exists final a,
    final_scores bm25_scores semantic_scores chunks (strip query) alpha
    = Some final /\
    h = mkHit 1 (key final a) (nth a chunks []) /\
    (a < length final)%nat /\
    forall j, (j < length final)%nat -> key final j <= key final a.
Proof.
  intros H.
  destruct (search_results_shape _ _ _ _ _ _ _ H)
    as [E | (bn & sn & Ebn & Esn & E)]; [discriminate|].
  symmetry in E. destruct (results_cons _ _ _ _ _ E) as (a & idx' & Ei & Eh).
  exists (fuse alpha sn bn), a. unfold final_scores. rewrite Ebn, Esn.
  split; [reflexivity|]. split; [exact Eh|]. split.
  - apply (top_indices_in_range _ top_k). rewrite Ei. left. reflexivity.
  - exact (top_index_maximal _ _ _ _ Ei).
Qed.

Lemma search_top_score_bounds
    (bm25_scores semantic_scores : list pystr -> pystr -> list Q)
    (chunks : list pystr) (query : pystr) (top_k : Z) (alpha : Q)
    (h : hit) (rest : list hit) :
  0 <= alpha <= 1 ->
  length (bm25_scores chunks (strip query)) = length chunks ->
  length (semantic_scores chunks (strip query)) = length chunks ->
  hybrid_chunk_search bm25_scores semantic_scores chunks query top_k alpha
  = Some (h :: rest) ->
  alpha <= score h /\ 1 - alpha <= score h /\ score h <= 1.
Proof.
  intros Ha Hb Hs H.
  destruct (search_top_hit _ _ _ _ _ _ _ _ H) as (final & a & Ef & -> & Hlt & Hmax).
  unfold final_scores in Ef.
  destruct (normalize (bm25_scores chunks (strip query))) as [bn|] eqn:Ebn;
    [|discriminate].
  destruct (normalize (semantic_scores chunks (strip query))) as [sn|] eqn:Esn;
    [|discriminate].
  injection Ef as <-.
  destruct (normalize_unit_interval _ _ Ebn) as [Lb Ub].
  destruct (normalize_unit_interval _ _ Esn) as [Ls Us].
  destruct (normalize_attains_one _ _ Ebn) as (jb & Hjb & Ejb).
  destruct (normalize_attains_one _ _ Esn) as (js & Hjs & Ejs).
  assert (Lf : length (fuse alpha sn bn) = length chunks)
    by (rewrite fuse_length; lia).
  pose proof (Hmax jb ltac:(lia)) as Mb. pose proof (Hmax js ltac:(lia)) as Ms.
  rewrite fuse_key in Mb, Ms by lia.
  pose proof (key_unit_interval bn js Ub). pose proof (key_unit_interval sn jb Us).
  pose proof (key_unit_interval (fuse alpha sn bn) a
                (fuse_unit_interval alpha sn bn Ha Us Ub)).
  simpl. unfold fuse_score in *. repeat split; try lra; nra.
Qed.

(** The first result carries the largest fused score of all chunks of the
    document, whether they are returned or not. *)
Theorem top_hit_has_maximal_score
    (bm25_scores semantic_scores : list pystr -> pystr -> list Q)
    (chunks : list pystr) (query : pystr) (top_k : Z) (alpha : Q)
    (h : hit) (rest : list hit) :
  length (bm25_scores chunks (strip query)) = length chunks ->
  length (semantic_scores chunks (strip query)) = length chunks ->
  hybrid_chunk_search bm25_scores semantic_scores chunks query top_k alpha
  = Some (h :: rest) ->
  exists final,
    final_scores bm25_scores semantic_scores chunks (strip query) alpha
    = Some final /\
    length final = length chunks /\
    rank h = 1%Z /\
    forall j, (j < length chunks)%nat -> key final j <= score h.
Proof.
  intros Hb Hs H.
  destruct (search_top_hit _ _ _ _ _ _ _ _ H) as (final & a & Ef & -> & Hlt & Hmax).
  exists final. split; [exact Ef|].
  assert (Lf : length final = length chunks).
  { unfold final_scores in Ef.
    destruct (normalize (bm25_scores chunks (strip query))) as [bn|] eqn:Ebn;
      [|discriminate].
    destruct (normalize (semantic_scores chunks (strip query))) as [sn|] eqn:Esn;
      [|discriminate].
    injection Ef as <-.
    destruct (normalize_unit_interval _ _ Ebn) as [Lb _].
    destruct (normalize_unit_interval _ _ Esn) as [Ls _].
    rewrite fuse_length. lia. }
  split; [exact Lf|]. split; [reflexivity|].
  intros j Hj. simpl. apply Hmax. lia.
Qed.

(** [top_hit_has_maximal_score] at a concrete input. *)
Lemma top_hit_has_maximal_score_witness :
  exists h rest,
    hybrid_chunk_search (fun _ _ => [0; 2; 1]) (fun _ _ => [1; 1; 0])
      [str "a"; str "b"; str "c"] (str "q") 2 (6 # 10) = Some (h :: rest) /\
    exists final,
      final_scores (fun _ _ => [0; 2; 1]) (fun _ _ => [1; 1; 0])
        [str "a"; str "b"; str "c"] (strip (str "q")) (6 # 10) = Some final /\
      length final = length [str "a"; str "b"; str "c"] /\
      rank h = 1%Z /\
      forall j, (j < length [str "a"; str "b"; str "c"])%nat ->
                key final j <= score h.
Proof.
  eexists. eexists. split; [reflexivity|].
  eapply (top_hit_has_maximal_score (fun _ _ => [0; 2; 1]) (fun _ _ => [1; 1; 0])
            [str "a"; str "b"; str "c"] (str "q") 2 (6 # 10));
    reflexivity.
Defined.

(** For [alpha] in [0, 1] the score of the first result is at least
    [alpha] and at least [1 - alpha], hence at least one half: the chunk
    with the best semantic score has a fused score of [alpha] or more, the
    chunk with the best BM25 score one of [1 - alpha] or more. *)
Theorem top_score_at_least_weights
    (bm25_scores semantic_scores : list pystr -> pystr -> list Q)
    (chunks : list pystr) (query : pystr) (top_k : Z) (alpha : Q)
    (h : hit) (rest : list hit) :
  0 <= alpha <= 1 ->
  length (bm25_scores chunks (strip query)) = length chunks ->
  length (semantic_scores chunks (strip query)) = length chunks ->
  hybrid_chunk_search bm25_scores semantic_scores chunks query top_k alpha
  = Some (h :: rest) ->
  alpha <= score h /\ 1 - alpha <= score h /\ 1 # 2 <= score h.
Proof.
  intros Ha Hb Hs H.
  destruct (search_top_score_bounds _ _ _ _ _ _ _ _ Ha Hb Hs H) as (A & B & _).
  repeat split; lra.
Qed.

(** [top_score_at_least_weights] at a concrete input. *)
Lemma top_score_at_least_weights_witness :
  exists h rest,
    hybrid_chunk_search (fun _ _ => [0; 2; 1]) (fun _ _ => [1; 0; 0])
      [str "a"; str "b"; str "c"] (str "q") 2 (6 # 10) = Some (h :: rest) /\
    6 # 10 <= score h /\ 1 - (6 # 10) <= score h /\ 1 # 2 <= score h.
Proof.
  eexists. eexists. split; [reflexivity|].
  eapply (top_score_at_least_weights (fun _ _ => [0; 2; 1]) (fun _ _ => [1; 0; 0])
            [str "a"; str "b"; str "c"] (str "q") 2 (6 # 10)).
  - split; discriminate.
  - reflexivity.
  - reflexivity.
  - reflexivity.
Defined.

(** A document of one chunk: whatever the two scorers say, the only result
    has a fused score of 1 (both score vectors are degenerate). *)
Theorem single_chunk_scores_one
    (bm25_scores semantic_scores : list pystr -> pystr -> list Q)
    (c : pystr) (query : pystr) (top_k : Z) (alpha : Q) :
  truthy (strip query) = true ->
  length (bm25_scores [c] (strip query)) = 1%nat ->
  length (semantic_scores [c] (strip query)) = 1%nat ->
  (1 <= top_k)%Z ->
  exists s,
    hybrid_chunk_search bm25_scores semantic_scores [c] query top_k alpha
    = Some [mkHit 1 s c] /\ s == 1.
Proof.
  intros Hq Hb Hs Hk. unfold hybrid_chunk_search, final_scores.
  rewrite Hq. simpl.
  destruct (bm25_scores [c] (strip query)) as [|x [|? ?]]; try discriminate.
  destruct (semantic_scores [c] (strip query)) as [|y [|? ?]]; try discriminate.
  unfold normalize. simpl.
  destruct (Qlt_le_dec (x - x) eps) as [_|Hx]; [|unfold eps in Hx; lra].
  destruct (Qlt_le_dec (y - y) eps) as [_|Hy]; [|unfold eps in Hy; lra].
  simpl. unfold top_indices, slice_to, np_argsort, clamp_index. simpl.
  destruct (Z.ltb_spec top_k 0); [lia|].
  replace (Z.to_nat (Z.min top_k (len [0%nat]))) with 1%nat
    by (unfold len; simpl; lia).
  simpl. eexists. split; [reflexivity|]. unfold key. simpl.
  unfold fuse_score. ring.
Qed.

(** [single_chunk_scores_one] at a concrete input. *)
Lemma single_chunk_scores_one_witness :
  exists s,
    hybrid_chunk_search (fun _ _ => [0]) (fun _ _ => [-(1 # 2)])
      [str "only"] (str "q") 5 (6 # 10)
    = Some [mkHit 1 s (str "only")] /\ s == 1.
Proof.
  apply (single_chunk_scores_one (fun _ _ => [0]) (fun _ _ => [-(1 # 2)])
           (str "only") (str "q") 5 (6 # 10));
    [reflexivity | reflexivity | reflexivity | lia].
Defined.

End FusionFacts.

(** ** The answer-generation boundary *)

Module LLMFacts.

Import LLM.

(** With a client at hand the call returns a string whatever the service
    does: its answer trimmed, or one of the two failure messages. *)
Theorem generate_returns_with_client (service : request -> reply) (w : world)
    (question : pystr) (context_chunks : list pystr) (model : pystr) :
  client_available w ->
  exists answer w',
    generate_answer_with_context service w question context_chunks model
    = (Returned answer, w') /\
    ((exists content, answer = strip content) \/ (exists e, answer = handled e)).
Proof.
  unfold client_available, generate_answer_with_context, get_client.
  destruct (cached_client w) as [c|]; [intros _|].
  - destruct (service _) as [[|[content|] rest]|e]; eexists; eexists;
      (split; [reflexivity|]); eauto.
  - destruct (env_api_key w) as [k|]; [|contradiction].
    intros ->.
    destruct (service _) as [[|[content|] rest]|e]; eexists; eexists;
      (split; [reflexivity|]); eauto.
Qed.

(** C9, the failing call: in a process that has no client yet and no
    [OPENAI_API_KEY], [get_client] raises before the [try] block is entered,
    and the [RuntimeError] reaches the caller whatever the question, the
    chunks and the service are. *)
Theorem generate_without_key_raises (service : request -> reply)
    (question : pystr) (context_chunks : list pystr) (model : pystr) :
  generate_answer_with_context service no_key question context_chunks model
  = (Raised (RuntimeError missing_key_message), no_key).
Proof. reflexivity. Qed.

(** [generate_returns_with_client] at a concrete input. *)
Lemma generate_returns_with_client_witness :
  exists answer w',
    generate_answer_with_context
      (fun _ => Fails (mkExn (str "RateLimitError") (str "quota") true))
      (mkWorld None (Some (str "key")) []) (str "q") [str "chunk"] default_model
    = (Returned answer, w') /\
    ((exists content, answer = strip content) \/ (exists e, answer = handled e)).
Proof.
  exact (generate_returns_with_client
           (fun _ => Fails (mkExn (str "RateLimitError") (str "quota") true))
           (mkWorld None (Some (str "key")) []) (str "q") [str "chunk"]
           default_model eq_refl).
Defined.

(** *** The cached client *)

Lemma generate_raises_without_client (service : request -> reply) (w : world)
    (question : pystr) (context_chunks : list pystr) (model : pystr) :
  ~ client_available w ->
  generate_answer_with_context service w question context_chunks model
  = (Raised (RuntimeError missing_key_message), w).
Proof.
  unfold client_available, generate_answer_with_context, get_client.
  destruct (cached_client w); [tauto|].
  destruct (env_api_key w) as [k|]; [|reflexivity].
  destruct (truthy k); [intros H; destruct (H eq_refl) | reflexivity].
Qed.

(** Once [get_client] has returned a client, the client is cached: every
    later call returns the same client, whatever the environment variable
    holds by then, and sends nothing. *)
Theorem get_client_caches (w w' : world) (client : pystr) :
  get_client w = (Returned client, w') ->
  cached_client w' = Some client /\ sent w' = sent w /\
  forall key,
    get_client (mkWorld (cached_client w') key (sent w'))
    = (Returned client, mkWorld (cached_client w') key (sent w')).
Proof.
  unfold get_client. intros H.
  assert (Hc : cached_client w' = Some client /\ sent w' = sent w).
  { destruct (cached_client w) as [c|] eqn:Ec.
    - injection H as <- <-. split; [exact Ec | reflexivity].
    - destruct (env_api_key w) as [k|]; [|discriminate].
      destruct (truthy k); [|discriminate].
      injection H as <- <-. split; reflexivity. }
  destruct Hc as [Hc Hs]. repeat split; try assumption.
  intros key. simpl. rewrite Hc. reflexivity.
Qed.

(** [get_client_caches] at a concrete input. *)
Lemma get_client_caches_witness :
  cached_client (mkWorld (Some (str "key")) (Some (str "key")) [])
  = Some (str "key") /\
  sent (mkWorld (Some (str "key")) (Some (str "key")) [])
  = sent (mkWorld None (Some (str "key")) []) /\
  forall key,
    get_client (mkWorld (Some (str "key")) key [])
    = (Returned (str "key"), mkWorld (Some (str "key")) key []).
Proof.
  exact (get_client_caches (mkWorld None (Some (str "key")) [])
           (mkWorld (Some (str "key")) (Some (str "key")) []) (str "key")
           eq_refl).
Defined.

End LLMFacts.

(** ** The confidence gate *)

Module GateFacts.

Import Fusion Gate.

Local Open Scope Q_scope.

Example py_round_examples :
  map py_round [20; 5 # 2; 7 # 2; -(1 # 2); -(3 # 2); 349 # 10; 2 # 3]
  = [20; 2; 4; 0; -2; 35; 1]%Z.
Proof. reflexivity. Qed.



(** *** The gate behind the search *)

Lemma py_round_bounds (x : Q) (k1 k2 : Z) :
  inject_Z k1 <= x -> x <= inject_Z k2 -> (k1 <= py_round x <= k2)%Z.
Proof.
  intros H1 H2. unfold py_round.
  pose proof (Qfloor_le x) as F1. pose proof (Qlt_floor x) as F2.
  assert (L : (k1 <= Qfloor x)%Z).
  { assert (k1 < Qfloor x + 1)%Z by (rewrite Zlt_Qlt; lra). lia. }
  assert (U : (Qfloor x <= k2)%Z) by (rewrite Zle_Qle; lra).
  assert (U' : inject_Z (Qfloor x) < x -> (Qfloor x + 1 <= k2)%Z).
  { intros Hlt. assert (Qfloor x < k2)%Z by (rewrite Zlt_Qlt; lra). lia. }
  destruct (Qcompare_spec (x - inject_Z (Qfloor x)) (1 # 2)) as [E|E|E].
  - destruct (Z.even (Qfloor x)); [lia|].
    assert (inject_Z (Qfloor x) < x) by lra. specialize (U' H). lia.
  - lia.
  - assert (inject_Z (Qfloor x) < x) by lra. specialize (U' H). lia.
Qed.

(** With the weight 0.6 of the view the first result of a search never
    falls below the threshold: the question goes to the language model. *)
Lemma qa_passes_gate (service : LLM.request -> LLM.reply)
    (bm25_scores semantic_scores : list pystr -> pystr -> list Q)
    (p : portal) (doc_content : pystr) (chunks : list pystr)
    (posted : option pystr) (h : hit) (rest : list hit) :
  let question := strip (match posted with Some q => q | None => [] end) in
  truthy doc_content = true ->
  length (bm25_scores chunks (strip question)) = length chunks ->
  length (semantic_scores chunks (strip question)) = length chunks ->
  hybrid_chunk_search bm25_scores semantic_scores chunks question 5 (6 # 10)
  = Some (h :: rest) ->
  document_detail_qa service bm25_scores semantic_scores p doc_content chunks
    posted
  = Some (passed_to_llm service p question (h :: rest)
            (py_round (score h * 100)))
  /\ 6 # 10 <= score h <= 1.
Proof.
  intros question Hc Hb Hs H.
  assert (Ha : 0 <= 6 # 10 <= 1) by (split; discriminate).
  destruct (FusionFacts.search_top_score_bounds _ _ _ _ _ _ _ _ Ha Hb Hs H)
    as (A & _ & B).
  split; [|split; assumption].
  unfold document_detail_qa. fold question.
  assert (Hq : truthy question = true).
  { unfold hybrid_chunk_search in H.
    destruct (truthy (strip question)) eqn:E; simpl in H; [|discriminate].
    subst question. rewrite ChunkerFacts.strip_idem in E. exact E. }
  rewrite Hq, Hc, H. simpl.
  unfold answer_question, passed_to_llm. cbv beta iota zeta.
  destruct (Qlt_le_dec (score h) threshold) as [Hlt|Hge];
    [unfold threshold in Hlt; lra | reflexivity].
Qed.

(** In the QA branch (weight 0.6, threshold 0.35) the refusal is never
    given when the search has a result: the score of the first result is at
    least 0.6, the question is passed to the language model, and the
    confidence shown lies between 60 and 100. *)
Theorem qa_gate_never_refuses (service : LLM.request -> LLM.reply)
    (bm25_scores semantic_scores : list pystr -> pystr -> list Q)
    (p : portal) (doc_content : pystr) (chunks : list pystr)
    (posted : option pystr) (h : hit) (rest : list hit) :
  let question := strip (match posted with Some q => q | None => [] end) in
  truthy doc_content = true ->
  length (bm25_scores chunks (strip question)) = length chunks ->
  length (semantic_scores chunks (strip question)) = length chunks ->
  hybrid_chunk_search bm25_scores semantic_scores chunks question 5 (6 # 10)
  = Some (h :: rest) ->
  ~ score h < threshold /\
  document_detail_qa service bm25_scores semantic_scores p doc_content chunks
    posted
  = Some (passed_to_llm service p question (h :: rest)
            (py_round (score h * 100))) /\
  (60 <= py_round (score h * 100) <= 100)%Z.
Proof.
  intros question Hc Hb Hs H.
  destruct (qa_passes_gate service _ _ p _ _ _ _ _ Hc Hb Hs H) as (E & A & B).
  split; [unfold threshold; lra|]. split; [exact E|].
  apply py_round_bounds; unfold inject_Z; lra.
Qed.

(** [qa_gate_never_refuses] at a concrete input. *)
Lemma qa_gate_never_refuses_witness :
  exists h rest,
    hybrid_chunk_search (fun _ _ => [0; 2; 1]) (fun _ _ => [1; 0; 0])
      [str "a"; str "b"; str "c"] (strip (str " q ")) 5 (6 # 10)
    = Some (h :: rest) /\
    ~ score h < threshold /\
    document_detail_qa (fun _ => LLM.Response [Some (str "yes")])
      (fun _ _ => [0; 2; 1]) (fun _ _ => [1; 0; 0])
      (mkPortal LLM.no_key []) (str "text") [str "a"; str "b"; str "c"]
      (Some (str " q "))
    = Some (passed_to_llm (fun _ => LLM.Response [Some (str "yes")])
              (mkPortal LLM.no_key []) (strip (str " q ")) (h :: rest)
              (py_round (score h * 100))) /\
    (60 <= py_round (score h * 100) <= 100)%Z.
Proof.
  eexists. eexists. split; [reflexivity|].
  eapply (qa_gate_never_refuses (fun _ => LLM.Response [Some (str "yes")])
            (fun _ _ => [0; 2; 1]) (fun _ _ => [1; 0; 0])
            (mkPortal LLM.no_key []) (str "text") [str "a"; str "b"; str "c"]
            (Some (str " q "))); reflexivity.
Defined.

(** Without a question, without a text or without chunks the QA branch
    answers with a fixed message and touches nothing: no request is sent,
    no history row is written, no confidence is shown. *)
Theorem qa_without_input_touches_nothing (service : LLM.request -> LLM.reply)
    (bm25_scores semantic_scores : list pystr -> pystr -> list Q)
    (p : portal) (doc_content : pystr) (chunks : list pystr)
    (posted : option pystr) :
  let question := strip (match posted with Some q => q | None => [] end) in
  question = [] \/ doc_content = [] \/ chunks = [] ->
  exists message,
    document_detail_qa service bm25_scores semantic_scores p doc_content chunks
      posted
    = Some (Returned (mkPage (Some question) (Some message) [] None), p) /\
    (message = no_input_message \/ message = no_paragraph_message).
Proof.
  intros question H. unfold document_detail_qa. fold question.
  destruct (truthy question && truthy doc_content) eqn:E.
  - apply andb_prop in E. destruct E as [Eq Ec].
    destruct H as [H | [H | H]];
      [rewrite H in Eq; discriminate | rewrite H in Ec; discriminate |].
    subst chunks. unfold hybrid_chunk_search.
    destruct (truthy (strip question)); simpl;
      exists no_paragraph_message; (split; [reflexivity | right; reflexivity]).
  - exists no_input_message. split; [reflexivity | left; reflexivity].
Qed.

(** [qa_without_input_touches_nothing] at a concrete input. *)
Lemma qa_without_input_touches_nothing_witness :
  exists message,
    document_detail_qa (fun _ => LLM.Response []) (fun _ _ => []) (fun _ _ => [])
      (mkPortal LLM.no_key []) (str "text") [] (Some (str "q"))
    = Some (Returned (mkPage (Some (strip (str "q"))) (Some message) [] None),
            mkPortal LLM.no_key []) /\
    (message = no_input_message \/ message = no_paragraph_message).
Proof.
  apply (qa_without_input_touches_nothing (fun _ => LLM.Response [])
           (fun _ _ => []) (fun _ _ => []) (mkPortal LLM.no_key [])
           (str "text") [] (Some (str "q"))).
  right. right. reflexivity.
Defined.

End GateFacts.

(** ** The summarizer *)

Module SummarizerFacts.

Import Summarizer.

Local Open Scope Z_scope.

Lemma pystr_eqb_eq (a b : pystr) : pystr_eqb a b = true <-> a = b.
Proof.
  unfold pystr_eqb. destruct (list_eq_dec N.eq_dec a b); split; congruence.
Qed.

Lemma strip_nil_of_nil : strip [] = [].
Proof. reflexivity. Qed.

(** [build_summary_context] returns no context for the empty text only: a
    text of white space gives one context, the empty string (for a limit
    that is not negative). *)
Theorem build_summary_context_empty (raw_text : pystr) (max_chars : Z) :
  (build_summary_context raw_text max_chars = [] <-> raw_text = []) /\
  (raw_text <> [] -> strip raw_text = [] -> 0 <= max_chars ->
   build_summary_context raw_text max_chars = [[]]).
Proof.
  unfold build_summary_context. split.
  - destruct raw_text as [|c r]; simpl; [tauto|].
    split; [|discriminate].
    destruct (len (strip (c :: r)) <=? max_chars); [discriminate|].
    destruct (negb _); discriminate.
  - intros Hne Hs Hm. destruct raw_text as [|c r]; [congruence|]. simpl.
    rewrite Hs. destruct (Z.leb_spec (len (@nil N)) max_chars) as [_|H];
      [reflexivity | unfold len in H; simpl in H; lia].
Qed.

(** [build_summary_context] at a text of white space. *)
Lemma build_summary_context_empty_witness :
  build_summary_context (str "  ") 10 = [[]].
Proof.
  exact (proj2 (build_summary_context_empty (str "  ") 10)
           ltac:(discriminate) eq_refl ltac:(lia)).
Defined.

(** A text that fits is returned whole, trimmed. For a limit of at least 2
    a longer text gives its first and its last [max_chars // 2] characters,
    which do not meet, and only the first ones when the two are equal after
    trimming: the contexts never hold more than [max_chars] characters. *)
Theorem build_summary_context_within_limit (raw_text : pystr) (max_chars : Z) :
  2 <= max_chars ->
  raw_text <> [] ->
  (len (strip raw_text) <= max_chars ->
   build_summary_context raw_text max_chars = [strip raw_text]) /\
  (max_chars < len (strip raw_text) ->
   exists head middle tail,
     strip raw_text = head ++ middle ++ tail /\
     len head = max_chars / 2 /\ len tail = max_chars / 2 /\
     len head + len tail <= max_chars /\
     (build_summary_context raw_text max_chars = [head; tail]
      \/ (build_summary_context raw_text max_chars = [head]
          /\ strip head = strip tail))).
Proof.
  intros Hm Hne. unfold build_summary_context.
  destruct raw_text as [|c r]; [congruence|].
  remember (strip (c :: r)) as text. simpl truthy. cbv beta iota zeta. simpl negb.
  cbv iota. split.
  - intros Hfit. destruct (Z.leb_spec (len text) max_chars); [reflexivity | lia].
  - intros Hlong. destruct (Z.leb_spec (len text) max_chars); [lia|].
    set (half := max_chars / 2).
    assert (Hhalf : 1 <= half /\ 2 * half <= max_chars).
    { subst half. split.
      - apply Z.div_le_lower_bound; lia.
      - apply Z.mul_div_le. lia. }
    assert (Hhead : slice_to text half = firstn (Z.to_nat half) text).
    { unfold slice_to, clamp_index.
      destruct (Z.ltb_spec half 0); [lia|]. rewrite Z.min_l by lia. reflexivity. }
    assert (Htail : slice_from text (- half)
                    = skipn (Z.to_nat (len text - half)) text).
    { unfold slice_from, clamp_index.
      destruct (Z.ltb_spec (- half) 0); [|lia].
      rewrite Z.max_r by lia. f_equal. f_equal. lia. }
    rewrite Hhead, Htail.
    exists (firstn (Z.to_nat half) text),
           (firstn (Z.to_nat (len text - 2 * half)) (skipn (Z.to_nat half) text)),
           (skipn (Z.to_nat (len text - half)) text).
    assert (L1 : len (firstn (Z.to_nat half) text) = half).
    { unfold len in *. rewrite length_firstn. lia. }
    assert (L2 : len (skipn (Z.to_nat (len text - half)) text) = half).
    { unfold len in *. rewrite length_skipn. lia. }
    split.
    { rewrite <- (firstn_skipn (Z.to_nat half) text) at 1. f_equal.
      rewrite <- (firstn_skipn (Z.to_nat (len text - 2 * half))
                    (skipn (Z.to_nat half) text)) at 1.
      f_equal. rewrite skipn_skipn. f_equal. lia. }
    split; [exact L1|]. split; [exact L2|]. split; [lia|].
    destruct (pystr_eqb _ _) eqn:E; simpl.
    + right. split; [reflexivity | apply pystr_eqb_eq; exact E].
    + left. reflexivity.
Qed.

(** [build_summary_context_within_limit] at a concrete input. *)
Lemma build_summary_context_within_limit_witness :
  exists head middle tail,
    strip (str " abcdefg ") = head ++ middle ++ tail /\
    len head = 5 / 2 /\ len tail = 5 / 2 /\
    len head + len tail <= 5 /\
    (build_summary_context (str " abcdefg ") 5 = [head; tail]
     \/ (build_summary_context (str " abcdefg ") 5 = [head]
         /\ strip head = strip tail)).
Proof.
  exact (proj2 (build_summary_context_within_limit (str " abcdefg ") 5
                  ltac:(lia) ltac:(discriminate)) ltac:(reflexivity)).
Defined.

(** Below 2 the limit is not kept: [max_chars // 2] is 0, the last 0
    characters are taken as [text[-0:]], that is the whole text, and the
    contexts are the empty string and the whole trimmed text. *)
Theorem build_summary_context_small_limit (raw_text : pystr) (max_chars : Z) :
  0 <= max_chars <= 1 ->
  max_chars < len (strip raw_text) ->
  build_summary_context raw_text max_chars = [[]; strip raw_text].
Proof.
  intros Hm Hlong. unfold build_summary_context.
  destruct raw_text as [|c r]; [unfold len in Hlong; simpl in Hlong; lia|].
  remember (strip (c :: r)) as text. simpl truthy. simpl negb. cbv iota.
  destruct (Z.leb_spec (len text) max_chars); [lia|].
  assert (Hhalf : max_chars / 2 = 0) by (apply Z.div_small; lia).
  rewrite Hhalf.
  assert (Hhead : slice_to text 0 = []).
  { unfold slice_to, clamp_index. simpl. rewrite Z.min_l by (unfold len; lia).
    reflexivity. }
  assert (Htail : slice_from text (- 0) = text).
  { unfold slice_from, clamp_index. simpl. rewrite Z.min_l by (unfold len; lia).
    reflexivity. }
  rewrite Hhead, Htail.
  assert (Hs : strip text = text) by (subst text; apply ChunkerFacts.strip_idem).
  rewrite Hs. change (strip []) with (@nil N).
  destruct (pystr_eqb [] text) eqn:E; [|reflexivity].
  apply pystr_eqb_eq in E. subst text. rewrite <- E in Hlong.
  unfold len in Hlong. simpl in Hlong. lia.
Qed.

(** [build_summary_context_small_limit] at a concrete input. *)
Lemma build_summary_context_small_limit_witness :
  build_summary_context (str "abc") 1 = [[]; strip (str "abc")].
Proof.
  exact (build_summary_context_small_limit (str "abc") 1
           ltac:(lia) ltac:(reflexivity)).
Defined.

Lemma long_chunk_is_truthy (c : pystr) :
  truthy c && (20 <? len (strip c)) = (20 <? len (strip c)).
Proof.
  destruct c as [|x c]; [reflexivity|]. reflexivity.
Qed.

Lemma filter_long (chunks : list pystr) :
  filter (fun c => truthy c && (20 <? len (strip c))) chunks
  = filter (fun c => 20 <? len (strip c)) chunks.
Proof.
  apply filter_ext. intros c. apply long_chunk_is_truthy.
Qed.

(** What [summarize_document_chunks] selects, for any [chunks] and
    [top_k]. *)
Lemma summarize_document_chunks_spec (chunks : list pystr) (top_k : Z) :
  summarize_document_chunks chunks top_k
  = slice_to (map strip (filter (fun c => 20 <? len (strip c)) chunks)) top_k.
Proof.
  unfold summarize_document_chunks. rewrite filter_long.
  assert (Hnil : slice_to (@nil pystr) top_k = []).
  { unfold slice_to. apply firstn_nil. }
  destruct chunks as [|c cs]; [simpl; rewrite Hnil; reflexivity|].
  remember (map strip (filter (fun c0 => 20 <? len (strip c0)) (c :: cs)))
    as filtered.
  change (truthy (c :: cs)) with true. cbv beta iota delta [negb].
  destruct filtered as [|x l]; [rewrite Hnil|]; reflexivity.
Qed.



(** [summarize_document_with_gpt] catches what the language-model call
    raises: without a client it returns its fixed failure message, sends
    nothing and leaves the process state as it was. *)
Theorem summarize_with_gpt_without_client (service : LLM.request -> LLM.reply)
    (w : LLM.world) (doc : document) (max_lines : Z) :
  ~ LLM.client_available w ->
  content doc <> [] -> chunks doc <> [] ->
  summarize_document_with_gpt service w (Some doc) max_lines
  = (gpt_failure_message, w).
Proof.
  intros Hw Hc Hk. unfold summarize_document_with_gpt.
  destruct (content doc); [congruence|]. destruct (chunks doc) eqn:E; [congruence|].
  simpl negb. cbv iota.
  rewrite LLMFacts.generate_raises_without_client by exact Hw. reflexivity.
Qed.

(** [summarize_with_gpt_without_client] at a concrete input. *)
Lemma summarize_with_gpt_without_client_witness :
  summarize_document_with_gpt (fun _ => LLM.Response [Some (str "yes")])
    LLM.no_key (Some (mkDocument (str "text") [str "chunk"])) 5
  = (gpt_failure_message, LLM.no_key).
Proof.
  apply (summarize_with_gpt_without_client
           (fun _ => LLM.Response [Some (str "yes")]) LLM.no_key
           (mkDocument (str "text") [str "chunk"]) 5);
    [intros H; exact H | discriminate | discriminate].
Defined.

End SummarizerFacts.

(** ** The document views *)

Module ViewsFacts.

Import Summarizer Views.

Local Open Scope Z_scope.

Lemma portal_eta (p : Gate.portal) :
  Gate.mkPortal (Gate.llm p) (Gate.history p) = p.
Proof. destruct p. reflexivity. Qed.

Lemma fallback_summary_bounded (doc_content : pystr) :
  len (fallback_summary doc_content) <= 600 + len partial_notice /\
  firstn 600 (fallback_summary doc_content) = firstn 600 (strip doc_content).
Proof.
  unfold fallback_summary. cbv zeta.
  destruct (Z.ltb_spec 600 (len (strip doc_content))) as [Hlong|Hfit].
  - assert (Hs : slice_to (strip doc_content) 600
                 = firstn 600 (strip doc_content)).
    { unfold slice_to, clamp_index. destruct (Z.ltb_spec 600 0); [lia|].
      rewrite Z.min_l by lia. reflexivity. }
    rewrite Hs.
    assert (Hl : length (firstn 600 (strip doc_content)) = 600%nat).
    { rewrite length_firstn. unfold len in Hlong. lia. }
    split.
    + unfold len in *. rewrite length_app, Hl. lia.
    + rewrite firstn_app, Hl, Nat.sub_diag, firstn_O, app_nil_r.
      rewrite firstn_firstn, Nat.min_id. reflexivity.
  - split; [|reflexivity].
    pose proof (ChunkerFacts.len_nonneg partial_notice). lia.
Qed.

(** In summary mode a missing client does not reach the user: the view
    shows the first 600 characters of the trimmed text (with a notice when
    the text is longer), sends nothing, and leaves the state as it was. *)
Theorem detail_summary_without_client_falls_back
    (service : LLM.request -> LLM.reply)
    (bm25_scores semantic_scores : list pystr -> pystr -> list Q)
    (p : Gate.portal) (doc : document) (posted : option pystr) :
  ~ LLM.client_available (Gate.llm p) ->
  content doc <> [] -> chunks doc <> [] ->
  document_detail service bm25_scores semantic_scores p doc
    (POST (Some (str "summary")) posted)
  = Some (Returned (mkContext (Some (fallback_summary (content doc))) None None
                      [] None (rev (Gate.history p))), p) /\
  len (fallback_summary (content doc)) <= 600 + len partial_notice /\
  firstn 600 (fallback_summary (content doc))
  = firstn 600 (strip (content doc)).
Proof.
  intros Hw Hc Hk. split; [|apply fallback_summary_bounded].
  unfold document_detail.
  change (pystr_eqb (str "summary") (str "summary")) with true. cbv iota.
  unfold summary_mode.
  destruct (content doc) eqn:Ec; [congruence|].
  destruct (chunks doc) eqn:Ek; [congruence|].
  change (truthy (n :: p0)) with true. change (truthy (p1 :: l)) with true.
  cbv iota.
  rewrite LLMFacts.generate_raises_without_client by exact Hw.
  unfold shown_history. simpl. rewrite portal_eta. reflexivity.
Qed.

(** [detail_summary_without_client_falls_back] at a concrete input. *)
Lemma detail_summary_without_client_falls_back_witness :
  document_detail (fun _ => LLM.Response []) (fun _ _ => []) (fun _ _ => [])
    (Gate.mkPortal LLM.no_key []) (mkDocument (str " text ") [str "chunk"])
    (POST (Some (str "summary")) None)
  = Some (Returned (mkContext (Some (str "text")) None None [] None []),
          Gate.mkPortal LLM.no_key []).
Proof.
  exact (proj1 (detail_summary_without_client_falls_back
                  (fun _ => LLM.Response []) (fun _ _ => []) (fun _ _ => [])
                  (Gate.mkPortal LLM.no_key [])
                  (mkDocument (str " text ") [str "chunk"]) None
                  (fun H => H) ltac:(discriminate) ltac:(discriminate))).
Defined.

(** In QA mode a missing client does reach the user: whenever the search
    has a result, the view raises the [RuntimeError] of [get_client], and
    nothing of the question is kept (no history row, no request). *)
Theorem detail_qa_without_client_raises
    (service : LLM.request -> LLM.reply)
    (bm25_scores semantic_scores : list pystr -> pystr -> list Q)
    (p : Gate.portal) (doc : document) (mode posted : option pystr)
    (h : Fusion.hit) (rest : list Fusion.hit) :
  let question := strip (match posted with Some q => q | None => [] end) in
  mode = None \/ mode = Some (str "qa") ->
  ~ LLM.client_available (Gate.llm p) ->
  content doc <> [] ->
  length (bm25_scores (chunks doc) (strip question)) = length (chunks doc) ->
  length (semantic_scores (chunks doc) (strip question)) = length (chunks doc) ->
  Fusion.hybrid_chunk_search bm25_scores semantic_scores (chunks doc) question
    5 (6 # 10) = Some (h :: rest) ->
  document_detail service bm25_scores semantic_scores p doc (POST mode posted)
  = Some (Raised (LLM.RuntimeError LLM.missing_key_message), p).
Proof.
  intros question Hmode Hw Hc Hb Hs H.
  assert (Hc' : truthy (content doc) = true)
    by (destruct (content doc); [congruence | reflexivity]).
  destruct (GateFacts.qa_passes_gate service _ _ p _ _ posted _ _ Hc' Hb Hs H)
    as (E & _).
  unfold document_detail.
  assert (Hqa : pystr_eqb (match mode with Some m => m | None => str "qa" end)
                  (str "summary") = false
                /\ pystr_eqb (match mode with Some m => m | None => str "qa" end)
                     (str "qa") = true).
  { destruct Hmode as [-> | ->]; split; reflexivity. }
  destruct Hqa as [E1 E2]. rewrite E1, E2, E.
  unfold Gate.passed_to_llm.
  rewrite LLMFacts.generate_raises_without_client by exact Hw.
  rewrite portal_eta. reflexivity.
Qed.

(** [detail_qa_without_client_raises] at a concrete input. *)
Lemma detail_qa_without_client_raises_witness :
  document_detail (fun _ => LLM.Response [Some (str "yes")])
    (fun _ _ => [0%Q; 2%Q]) (fun _ _ => [1%Q; 0%Q])
    (Gate.mkPortal LLM.no_key []) (mkDocument (str "text") [str "a"; str "b"])
    (POST None (Some (str "q")))
  = Some (Raised (LLM.RuntimeError LLM.missing_key_message),
          Gate.mkPortal LLM.no_key []).
Proof.
  eapply (detail_qa_without_client_raises
            (fun _ => LLM.Response [Some (str "yes")])
            (fun _ _ => [0%Q; 2%Q]) (fun _ _ => [1%Q; 0%Q])
            (Gate.mkPortal LLM.no_key [])
            (mkDocument (str "text") [str "a"; str "b"]) None (Some (str "q"))).
  - left. reflexivity.
  - intros H. exact H.
  - discriminate.
  - reflexivity.
  - reflexivity.
  - reflexivity.
Defined.

Lemma join_nonempty (sep first : pystr) (rest : list pystr) :
  len first <= len (join sep (first :: rest)).
Proof.
  destruct rest as [|x rest]; simpl; [lia|].
  unfold len. rewrite length_app. lia.
Qed.

(** The summary page shows at most three chunks, each with more than 20
    characters after trimming, and its text is empty exactly when no chunk
    is shown. *)
Theorem document_summary_shows_long_chunks (doc : document) :
  len (fst (document_summary doc)) <= 3 /\
  Forall (fun c => 20 < len c) (fst (document_summary doc)) /\
  (snd (document_summary doc) = [] <-> fst (document_summary doc) = []).
Proof.
  unfold document_summary. cbv zeta. simpl fst. simpl snd.
  set (shown := if truthy (chunks doc)
                then summarize_document_chunks (chunks doc) 3 else []).
  assert (Hshown : shown = summarize_document_chunks (chunks doc) 3).
  { subst shown. destruct (chunks doc); reflexivity. }
  assert (Hlong : Forall (fun c => 20 < len c) shown).
  { rewrite Hshown, SummarizerFacts.summarize_document_chunks_spec.
    apply Forall_forall. intros c Hc. unfold slice_to in Hc.
    apply FusionFacts.In_firstn in Hc. apply in_map_iff in Hc.
    destruct Hc as (c0 & <- & Hc0). apply filter_In in Hc0.
    apply Z.ltb_lt. apply Hc0. }
  split; [|split; [exact Hlong|]].
  - rewrite Hshown, SummarizerFacts.summarize_document_chunks_spec.
    unfold slice_to, clamp_index. destruct (Z.ltb_spec 3 0); [lia|].
    unfold len. rewrite length_firstn. lia.
  - destruct shown as [|c cs]; [split; reflexivity|].
    change (truthy (c :: cs)) with true. cbv iota.
    split; [|discriminate]. intros E.
    pose proof (join_nonempty [10%N; 10%N] c cs) as Hj. rewrite E in Hj.
    inversion Hlong as [|? ? Hc _]; subst. unfold len in Hj at 2. simpl in Hj. lia.
Qed.

End ViewsFacts.

(** ** The tokenizer and the overlap score *)

Module TokenizerFacts.

Import Tokenizer.

Lemma split_acc_spec (s : pystr) :
  forall cur,
    Forall (fun c => isspace c = false) cur ->
    Forall (fun t => t <> [] /\ Forall (fun c => isspace c = false) t)
           (split_acc s cur)
    /\ concat (split_acc s cur) = cur ++ filter nonspace s.
Proof.
  induction s as [|c s IH]; intros cur Hcur; simpl.
  - destruct cur as [|x cur]; simpl.
    + split; [constructor | reflexivity].
    + split; [|rewrite !app_nil_r; reflexivity].
      constructor; [split; [discriminate | exact Hcur] | constructor].
  - unfold nonspace at 1. destruct (isspace c) eqn:Ec; simpl.
    + destruct (IH [] (Forall_nil _)) as [F E]. destruct cur as [|x cur]; simpl.
      * split; [exact F | exact E].
      * split; [|rewrite E; reflexivity].
        constructor; [split; [discriminate | exact Hcur] | exact F].
    + destruct (IH (cur ++ [c])) as [F E].
      { apply Forall_app. split; [exact Hcur | constructor; [exact Ec | constructor]]. }
      split; [exact F|]. rewrite E, <- app_assoc. reflexivity.
Qed.

Lemma blank_others_kept (text : pystr) :
  Forall (fun c => kept c = true) (blank_others text).
Proof.
  unfold blank_others. apply Forall_map. apply Forall_forall. intros c _.
  destruct (kept c) eqn:E; [exact E | reflexivity].
Qed.

(** Whatever [str.lower] does, a token of [_normalize] is never empty and
    holds only digits, lower-case ASCII letters and Hangul syllables; the
    tokens, put together, are the text after lower-casing and blanking with
    its white space left out. An empty text has no token. *)
Theorem tokens_are_clean (lower : pystr -> pystr) (text : pystr) :
  Forall (fun t => t <> [] /\ Forall (fun c => token_char c = true) t)
         (_normalize lower text) /\
  (text = [] -> _normalize lower text = []) /\
  (text <> [] ->
   concat (_normalize lower text)
   = filter nonspace (blank_others (lower text))).
Proof.
  unfold _normalize. destruct text as [|x text]; simpl.
  - split; [constructor|]. split; [reflexivity | congruence].
  - destruct (split_acc_spec (blank_others (lower (x :: text))) []
                (Forall_nil _)) as [F E].
    fold (split (blank_others (lower (x :: text)))) in F, E.
    split; [|split; [discriminate | intros _; exact E]].
    rewrite Forall_forall in *. intros t Ht.
    destruct (F t Ht) as [Hne Hns]. split; [exact Hne|].
    rewrite Forall_forall in *. intros c Hc.
    assert (Hin : In c (blank_others (lower (x :: text)))).
    { assert (Hcc : In c (concat (split (blank_others (lower (x :: text)))))).
      { apply in_concat. exists t. split; assumption. }
      rewrite E in Hcc. simpl in Hcc. apply filter_In in Hcc. apply Hcc. }
    pose proof (blank_others_kept (lower (x :: text))) as Hk.
    rewrite Forall_forall in Hk. specialize (Hk c Hin). specialize (Hns c Hc).
    unfold kept in Hk. rewrite Hns, orb_false_r in Hk. exact Hk.
Qed.

(** [tokens_are_clean] at a concrete input. *)
Lemma tokens_are_clean_witness :
  concat (_normalize ascii_lower (str "Hello, RAG-2 world!"))
  = filter nonspace (blank_others (ascii_lower (str "Hello, RAG-2 world!"))).
Proof.
  exact (proj2 (proj2 (tokens_are_clean ascii_lower (str "Hello, RAG-2 world!")))
           ltac:(discriminate)).
Defined.

Example normalize_example :
  _normalize ascii_lower (str "Hello, RAG-2 world!")
  = [str "hello"; str "rag"; str "2"; str "world"].
Proof. reflexivity. Qed.

(** *** The number of common tokens *)

Lemma keys_spec (tokens : list pystr) :
  forall seen,
    NoDup (keys tokens seen)
    /\ forall t, In t (keys tokens seen) <-> In t tokens /\ ~ In t seen.
Proof.
  induction tokens as [|t0 rest IH]; intros seen; simpl.
  - split; [constructor | intros t; tauto].
  - destruct (in_dec (list_eq_dec N.eq_dec) t0 seen) as [Hs|Hs].
    + destruct (IH seen) as [N I]. split; [exact N|].
      intros t. rewrite I. split; [tauto|].
      intros [[<- | H] Hn]; [contradiction | tauto].
    + destruct (IH (t0 :: seen)) as [N I]. split.
      * constructor; [|exact N]. rewrite I. simpl. tauto.
      * intros t. simpl. rewrite I. simpl.
        destruct (list_eq_dec N.eq_dec t0 t) as [<- | Hne]; tauto.
Qed.

Lemma fold_common (q c : list pystr) (l : list pystr) :
  forall a,
    fold_left
      (fun common t =>
         if (0 <? count t c)%nat
         then (common + Nat.min (count t q) (count t c))%nat
         else common) l a
    = (a + list_sum (map (both q c) l))%nat.
Proof.
  induction l as [|t l IH]; intros a; simpl; [lia|].
  rewrite IH. unfold both at 2.
  destruct (Nat.ltb_spec 0 (count t c)); lia.
Qed.

Lemma common_count_sum (q c : list pystr) :
  common_count q c = list_sum (map (both q c) (keys q [])).
Proof. unfold common_count. rewrite fold_common. reflexivity. Qed.

Lemma sum_over_superset (g : pystr -> nat) (l1 : list pystr) :
  forall l2,
    NoDup l1 -> NoDup l2 -> incl l1 l2 ->
    (forall t, In t l2 -> ~ In t l1 -> g t = 0%nat) ->
    list_sum (map g l1) = list_sum (map g l2).
Proof.
  induction l1 as [|a l1 IH]; intros l2 N1 N2 Hincl Hz; simpl.
  - symmetry. induction l2 as [|b l2 IH2]; [reflexivity|]. simpl.
    rewrite (Hz b (or_introl eq_refl) (fun H => H)).
    apply IH2.
    + inversion N2; assumption.
    + intros x Hx. destruct Hx.
    + intros t Ht _. apply Hz; [right; exact Ht | intros []].
  - destruct (in_split a l2 (Hincl a (or_introl eq_refl))) as (x & y & ->).
    inversion N1 as [|? ? Ha N1']; subst.
    pose proof (NoDup_remove_1 _ _ _ N2) as N2'.
    pose proof (NoDup_remove_2 _ _ _ N2) as Ha2.
    rewrite map_app, list_sum_app. simpl.
    rewrite (IH (x ++ y) N1' N2').
    + rewrite map_app, list_sum_app. lia.
    + intros t Ht.
      assert (Hin : In t (x ++ a :: y)) by (apply Hincl; right; exact Ht).
      apply in_app_or in Hin. apply in_or_app.
      destruct Hin as [H | [H | H]]; [left; exact H | subst; contradiction
                                      | right; exact H].
    + intros t Ht Hn. apply Hz.
      * apply in_app_or in Ht. apply in_or_app.
        destruct Ht; [left | right; right]; assumption.
      * intros [<- | H]; [contradiction | contradiction].
Qed.

Lemma count_zero (t : pystr) (tokens : list pystr) :
  ~ In t tokens -> count t tokens = 0%nat.
Proof. intros H. unfold count. apply count_occ_not_In. exact H. Qed.

Lemma common_count_over (q c K : list pystr) :
  NoDup K -> (forall t, In t q -> In t K) ->
  common_count q c = list_sum (map (both q c) K).
Proof.
  intros NK HK. rewrite common_count_sum.
  destruct (keys_spec q []) as [N I].
  apply sum_over_superset; [exact N | exact NK | |].
  - intros t Ht. apply HK. apply I in Ht. tauto.
  - intros t _ Hn. unfold both.
    rewrite (count_zero t q); [reflexivity|].
    intros Hq. apply Hn. apply I. split; [exact Hq | intros []].
Qed.

Lemma common_count_sym (q c : list pystr) : common_count q c = common_count c q.
Proof.
  destruct (keys_spec (q ++ c) []) as [N I].
  rewrite (common_count_over q c (keys (q ++ c) []) N).
  - rewrite (common_count_over c q (keys (q ++ c) []) N).
    + f_equal. apply map_ext. intros t. unfold both. apply Nat.min_comm.
    + intros t Ht. apply I. split; [apply in_or_app; right; exact Ht | intros []].
  - intros t Ht. apply I. split; [apply in_or_app; left; exact Ht | intros []].
Qed.

Lemma sum_of_counts_cons (a : pystr) (q K : list pystr) :
  list_sum (map (fun t => count t (a :: q)) K)
  = (count a K + list_sum (map (fun t => count t q) K))%nat.
Proof.
  induction K as [|k K IH]; [reflexivity|].
  unfold list_sum in *. cbn [map fold_right]. rewrite IH. unfold count. simpl.
  destruct (list_eq_dec N.eq_dec a k) as [E1|E1];
    destruct (list_eq_dec N.eq_dec k a) as [E2|E2]; try congruence; lia.
Qed.

Lemma sum_of_counts (q K : list pystr) :
  NoDup K -> (forall t, In t q -> In t K) ->
  list_sum (map (fun t => count t q) K) = length q.
Proof.
  intros NK. induction q as [|a q IH]; intros HK.
  - clear. induction K as [|k K IHK]; simpl; [reflexivity | exact IHK].
  - rewrite sum_of_counts_cons.
    rewrite (IH (fun t Ht => HK t (or_intror Ht))).
    assert (Ha : count a K = 1%nat).
    { unfold count.
      apply (proj1 (NoDup_count_occ' (list_eq_dec N.eq_dec) K) NK).
      apply HK. left. reflexivity. }
    rewrite Ha. reflexivity.
Qed.

Lemma sum_both_le (q c K : list pystr) :
  (list_sum (map (both q c) K) <= list_sum (map (fun t => count t q) K))%nat.
Proof.
  unfold list_sum. induction K as [|k K IH]; cbn [map fold_right]; [lia|].
  assert (both q c k <= count k q)%nat by (unfold both; lia). lia.
Qed.

Lemma common_count_le_left (q c : list pystr) : (common_count q c <= length q)%nat.
Proof.
  destruct (keys_spec q []) as [N I].
  rewrite common_count_sum.
  rewrite <- (sum_of_counts q (keys q []) N).
  - apply sum_both_le.
  - intros t Ht. apply I. split; [exact Ht | intros []].
Qed.

(** [_overlap_score] gives 0.0 exactly when one of the two texts has no
    token. Otherwise the number of common tokens it divides by the two
    square roots is at most the number of tokens of the question and at
    most that of the chunk, so its square is at most their product: the
    quotient of the exact values does not exceed 1. *)
Theorem overlap_score_bounds (lower : pystr -> pystr) (question chunk : pystr) :
  match _overlap_score lower question chunk with
  | NoOverlap => _normalize lower question = [] \/ _normalize lower chunk = []
  | Ratio common q_len c_len =>
      _normalize lower question <> [] /\ _normalize lower chunk <> [] /\
      (0 < q_len)%nat /\ (0 < c_len)%nat /\
      (common <= q_len)%nat /\ (common <= c_len)%nat /\
      (common * common <= q_len * c_len)%nat
  end.
Proof.
  unfold _overlap_score. cbv zeta.
  destruct (_normalize lower question) as [|tq q] eqn:Eq; simpl; [left; reflexivity|].
  destruct (_normalize lower chunk) as [|tc c] eqn:Ec; simpl; [right; reflexivity|].
  pose proof (common_count_le_left (tq :: q) (tc :: c)) as H1.
  pose proof (common_count_le_left (tc :: c) (tq :: q)) as H2.
  rewrite (common_count_sym (tc :: c) (tq :: q)) in H2. simpl length in *.
  repeat split; try discriminate; try lia. nia.
Qed.

(** The overlap score is symmetric: exchanging question and chunk gives
    the same number of common tokens, with the two lengths exchanged. *)
Theorem overlap_score_symmetric (lower : pystr -> pystr) (question chunk : pystr) :
  match _overlap_score lower question chunk,
        _overlap_score lower chunk question with
  | NoOverlap, NoOverlap => True
  | Ratio common q_len c_len, Ratio common' c_len' q_len' =>
      common = common' /\ q_len = q_len' /\ c_len = c_len'
  | _, _ => False
  end.
Proof.
  unfold _overlap_score. cbv zeta.
  destruct (_normalize lower question) as [|tq q];
    destruct (_normalize lower chunk) as [|tc c]; simpl; try exact I.
  split; [apply common_count_sym | split; reflexivity].
Qed.

Example overlap_score_example :
  _overlap_score ascii_lower (str "the cat and the hat") (str "The Cat sat; the end")
  = Ratio 3 5 5.
Proof. reflexivity. Qed.

End TokenizerFacts.
